(** * rda-lock-client: the lock handle and its factory

    A shallow embedding of [Lock.mjs] (the lock handle: its status machine,
    the acquisition loop, the keep-alive activity, free and cancel) and of
    [LockClient.mjs] (the factory).

    The handle is a mutable JavaScript object driven by [async] methods.
    Every method is embedded as the straight-line code that runs between two
    [await]s: a start function (from the call to the first [await]) and a
    resume function (from the settling of the awaited promise to the next
    [await]).  The event loop that interleaves the pending activities of one
    handle is the step function [sys_step] at the end of the model.

    Conventions.  Seconds and clock readings are integers; the back-off
    factor and the waits are rationals.  One piece of code reads one clock
    value.  An [await] on a call that ends without waiting itself is run
    through in the same piece.  The registry client, the http client and the
    delay are collaborators: the requests made to them are recorded as
    events, and what they answer is an input of the step function. *)

From Stdlib Require Import ZArith QArith Qround.
From stdpp Require Import base option list strings gmap sorting.

Close Scope Q_scope.
Open Scope string_scope.
Open Scope Z_scope.

(** ** JavaScript values *)

(** The values the constructor inspects with [typeof] and by truthiness.
    Numbers are integers or NaN; every object, function or symbol is a
    [VObj]. *)
Inductive value :=
| VUndefined
| VNull
| VBool (b : bool)
| VNum (n : Z)
| VNaN
| VStr (s : string)
| VObj (tag : string).

#[global] Instance value_eq_dec : EqDecision value.
Proof. solve_decision. Defined.

(** ToBoolean. *)
Definition truthy (v : value) : bool :=
  match v with
  | VUndefined | VNull | VNaN => false
  | VBool b => b
  | VNum n => negb (n =? 0)
  | VStr s => negb (String.eqb s "")
  | VObj _ => true
  end.

(** [typeof v === 'string'] *)
Definition is_string (v : value) : bool :=
  match v with VStr _ => true | _ => false end.

(** ** Errors *)

Inductive error :=
| ErrRegistryClientMissing        (* Please provide a 'registryClient' instance! *)
| ErrRegistryMissing              (* Please provide either a 'registryClient' instance or ... *)
| ErrResourceIdMissing            (* Please provide a 'resourceId' string! *)
| ErrNotAcquired (current : option string)          (* Cannot get lock id ... *)
| ErrTimeout (seconds : Z)                          (* Failed to acquire lock, the timeout ... *)
| ErrCannotFree (current : option string)           (* Cannot free lock: invalid status ... *)
| ErrInsufficientData                               (* Lock service returned insufficient data! *)
| ErrInvalidStatus (statusName : string)            (* the status '...' is invalid! *)
| ErrStatusNotHigher (currentName : option string) (current : option Z)
                     (statusName : string) (status : Z)
| ErrUnexpectedStatus (status : Z)                  (* .expect(...) of the http client *)
| ErrRejected (reason : string).                    (* a collaborator's promise rejected *)

#[global] Instance error_eq_dec : EqDecision error.
Proof. solve_decision. Defined.

(** How a piece of synchronous code ends. *)
Inductive completion (A : Type) :=
| Normal (a : A)
| Throw (e : error).
Arguments Normal {A} a.
Arguments Throw {A} e.

(** ** The status map *)

Definition lockStatusEntries : list (string * Z) :=
  [ ("initialized", 100);
    ("acquiring", 200);
    ("acquired", 300);
    ("freeing", 400);
    ("freed", 500);
    ("canceled", 850);
    ("timeout", 900);
    ("failed", 999) ].

Definition lockStatusMap : gmap string Z := list_to_map lockStatusEntries.

(** ** The cancelable delay ([@distributed-systems/delay]) *)

(** A [Delay] object; [cancel()] marks it.  Whether the wait on a canceled
    delay still settles is the library's business: the event loop below lets
    it settle or stay pending. *)
Record Delay := mkDelay { delay_canceled : bool }.

Definition delay_cancel (d : Delay) : Delay := mkDelay true.

(** ** The lock handle *)

Record Lock := mkLock {
  registryClient : value;
  lockId : value;
  resourceId : value;
  currentStatusName : option string;   (* [None] is JavaScript's undefined *)
  currentStatus : option Z;
  ttl : Z;
  timeout : Z;
  doKeepAlive : bool;
  lockCallCount : Z;
  backOffFactor : Q;
  backOffUpperBound : Z;
  tryLockTimeout : option Delay;
  keepAliveTimeout : option Delay;
}.

Definition set_status (n : option string) (c : option Z) (this : Lock) : Lock :=
  mkLock (registryClient this) (lockId this) (resourceId this) n c
         (ttl this) (timeout this) (doKeepAlive this) (lockCallCount this)
         (backOffFactor this) (backOffUpperBound this)
         (tryLockTimeout this) (keepAliveTimeout this).

Definition set_lockId (v : value) (this : Lock) : Lock :=
  mkLock (registryClient this) v (resourceId this)
         (currentStatusName this) (currentStatus this)
         (ttl this) (timeout this) (doKeepAlive this) (lockCallCount this)
         (backOffFactor this) (backOffUpperBound this)
         (tryLockTimeout this) (keepAliveTimeout this).

Definition set_tryLockTimeout (d : option Delay) (this : Lock) : Lock :=
  mkLock (registryClient this) (lockId this) (resourceId this)
         (currentStatusName this) (currentStatus this)
         (ttl this) (timeout this) (doKeepAlive this) (lockCallCount this)
         (backOffFactor this) (backOffUpperBound this)
         d (keepAliveTimeout this).

Definition set_keepAliveTimeout (d : option Delay) (this : Lock) : Lock :=
  mkLock (registryClient this) (lockId this) (resourceId this)
         (currentStatusName this) (currentStatus this)
         (ttl this) (timeout this) (doKeepAlive this) (lockCallCount this)
         (backOffFactor this) (backOffUpperBound this)
         (tryLockTimeout this) d.

(** [this.currentStatusName === name] *)
Definition status_is (name : string) (this : Lock) : bool :=
  bool_decide (currentStatusName this = Some name).

(** *** setStatus *)

(** Lines 324-332 of [setStatus], for a name the map has: the guard
    [this.currentStatus && this.currentStatus >= status] and the two
    assignments. *)
Definition setStatus_known (statusName : string) (status : Z) (this : Lock)
  : completion unit * Lock :=
  match currentStatus this with
  | Some current =>
      if negb (current =? 0) && (current >=? status)
      then (Throw (ErrStatusNotHigher (currentStatusName this) (Some current)
                                      statusName status), this)
      else (Normal tt, set_status (Some statusName) (Some status) this)
  | None => (Normal tt, set_status (Some statusName) (Some status) this)
  end.

(** [setStatus(statusName)].  For a name the map does not have, the method
    first calls itself with ['failed'] (a name the map has, so that call
    runs the guard and the assignments) and then throws. *)
Definition setStatus (statusName : string) (this : Lock) : completion unit * Lock :=
  match lockStatusMap !! statusName with
  | None =>
      match lockStatusMap !! "failed" with
      | Some failed =>
          match setStatus_known "failed" failed this with
          | (Throw e, this') => (Throw e, this')
          | (Normal _, this') => (Throw (ErrInvalidStatus statusName), this')
          end
      | None => (Throw (ErrInvalidStatus "failed"), this)
      end
  | Some status => setStatus_known statusName status this
  end.

(** *** constructor *)

Record LockArgs := mkLockArgs {
  arg_keepAlive : option bool;
  arg_lockId : value;
  arg_registryClient : value;
  arg_resourceId : value;
  arg_timeout : option Z;
  arg_ttl : option Z;
}.

(** The object before either branch of the constructor has set a status. *)
Definition blank (a : LockArgs) : Lock :=
  {| registryClient := arg_registryClient a;
     lockId := VUndefined;
     resourceId := VUndefined;
     currentStatusName := None;
     currentStatus := None;
     ttl := default 30 (arg_ttl a);
     timeout := default 60 (arg_timeout a);
     doKeepAlive := default true (arg_keepAlive a);
     lockCallCount := 0;
     backOffFactor := (13 # 10)%Q;
     backOffUpperBound := 15;
     tryLockTimeout := None;
     keepAliveTimeout := None |}.

Definition set_resourceId (v : value) (this : Lock) : Lock :=
  mkLock (registryClient this) (lockId this) v
         (currentStatusName this) (currentStatus this)
         (ttl this) (timeout this) (doKeepAlive this) (lockCallCount this)
         (backOffFactor this) (backOffUpperBound this)
         (tryLockTimeout this) (keepAliveTimeout this).

Definition Lock_constructor (a : LockArgs) : completion Lock :=
  if truthy (arg_registryClient a) then
    if truthy (arg_lockId a) then
      (* lock adoption. assume that it was acquired already *)
      Normal (set_status (Some "acquired") (lockStatusMap !! "acquired")
                         (set_lockId (arg_lockId a) (blank a)))
    else if negb (is_string (arg_resourceId a)) then
      Throw ErrResourceIdMissing
    else
      match setStatus "initialized" (set_resourceId (arg_resourceId a) (blank a)) with
      | (Throw e, _) => Throw e
      | (Normal _, this) => Normal this
      end
  else Throw ErrRegistryClientMissing.

(** [isAcquired()] and [getId()] *)
Definition isAcquired (this : Lock) : bool := truthy (lockId this).

Definition getId (this : Lock) : completion value :=
  if isAcquired this then Normal (lockId this)
  else Throw (ErrNotAcquired (currentStatusName this)).

(** ** The factory *)

(** [LockClient]: its constructor and the two producers.  ([hasLock], the
    existence probe of the client, comes after the handle's methods.) *)
Record LockClient := mkLockClient { client_registryClient : value }.

Definition LockClient_constructor (registryClient serviceRegistryHost : value)
  : completion LockClient :=
  if truthy registryClient then Normal (mkLockClient registryClient)
  else if truthy serviceRegistryHost then Normal (mkLockClient (VObj "RegistryClient"))
  else Throw ErrRegistryMissing.

(** The options object of [createLock] and [adoptLock]; [None] is an
    omitted (undefined) property. *)
Record Options := mkOptions {
  opt_ttl : option Z;
  opt_timeout : option Z;
  opt_keepAlive : option bool;
}.

Definition no_options : Options := mkOptions None None None.

Definition createLock (this : LockClient) (resourceId : value) (options : option Options)
  : completion Lock :=
  let o := default no_options options in
  let ttl := default 30 (opt_ttl o) in
  let timeout := default 60 (opt_timeout o) in
  let keepAlive := default true (opt_keepAlive o) in
  Lock_constructor
    {| arg_keepAlive := Some keepAlive;
       arg_lockId := VUndefined;
       arg_registryClient := client_registryClient this;
       arg_resourceId := resourceId;
       arg_timeout := Some timeout;
       arg_ttl := Some ttl |}.

Definition adoptLock (this : LockClient) (lockId : value) (options : option Options)
  : completion Lock :=
  let o := default no_options options in
  let ttl := default 30 (opt_ttl o) in
  let timeout := default 60 (opt_timeout o) in
  let keepAlive := default true (opt_keepAlive o) in
  Lock_constructor
    {| arg_keepAlive := Some keepAlive;
       arg_lockId := lockId;
       arg_registryClient := client_registryClient this;
       arg_resourceId := VUndefined;
       arg_timeout := Some timeout;
       arg_ttl := Some ttl |}.

(** ** What the handle does to the outside, and what comes back *)

(** Requests to the collaborators, in the order they are issued. *)
Inductive event :=
| EvResolve (service : string)                           (* registryClient.resolve(service) *)
| EvPost (host : string) (ttl : Z) (identifier : value)  (* POST host/rda-lock.lock *)
| EvDelete (host : string) (id : value)                  (* DELETE host/rda-lock.lock/id *)
| EvPatch (host : string) (id : value)                   (* PATCH host/rda-lock.lock/id *)
| EvGetData                                              (* lockResponse.getData() *)
| EvWait (ms : Q)                                        (* new Delay().wait(ms) *)
| EvLog (e : error).                                     (* log(e) *)

(** How an awaited promise settles. *)
Inductive answer :=
| AResolved (host : string)      (* resolve(...) gave a host *)
| AResponse (status : Z)         (* the service answered with this status code *)
| AData (data : option value)    (* getData(): falsy data, or an object and its id property *)
| AElapsed                       (* the delay is over *)
| ARejected (e : error).         (* the promise rejected *)

(** [.expect(codes).send()]: the response, or a rejection for any other
    status code. *)
Definition expect (codes : list Z) (a : answer) : option (completion Z) :=
  match a with
  | AResponse status =>
      if bool_decide (status ∈ codes) then Some (Normal status)
      else Some (Throw (ErrUnexpectedStatus status))
  | ARejected e => Some (Throw e)
  | _ => None
  end.

(** The [await]s of each method. *)
Inductive tryToLock_pc := TryResolve | TrySend | TryGetData.
Inductive free_pc := FreeResolve | FreeDelete.
Inductive keepAlive_pc := KeepWait | KeepResolve | KeepPatch.
Inductive lock_pc :=
| LockInTry (lockStart : Z) (pc : tryToLock_pc)   (* await this.tryToLock() *)
| LockInFree (pc : free_pc)                       (* await this.free(true) *)
| LockWait (lockStart : Z).                       (* await this.tryLockTimeout.wait(...) *)
Inductive cancel_pc := CancelInFree (pc : free_pc).

(** Where a piece of code stops: at an [await], at a return, or at a throw. *)
Inductive control (PC : Type) :=
| Await (pc : PC)
| Return (v : value)
| Raise (e : error).
Arguments Await {PC} pc.
Arguments Return {PC} v.
Arguments Raise {PC} e.

(** The result of running a piece of code on the handle: where it stopped,
    the handle afterwards, the requests it issued, and the keep-alive
    activities it left running in the background. *)
Record out (PC : Type) := mkOut {
  next : control PC;
  obj : Lock;
  emitted : list event;
  spawned : list keepAlive_pc;
}.
Arguments mkOut {PC} next obj emitted spawned.
Arguments next {PC} o.
Arguments obj {PC} o.
Arguments emitted {PC} o.
Arguments spawned {PC} o.

(** Code [k] run after code that issued [es] and spawned [bg]. *)
Definition after {PC} (es : list event) (bg : list keepAlive_pc) (k : out PC) : out PC :=
  mkOut (next k) (obj k) (es ++ emitted k) (bg ++ spawned k).

(** *** tryToLock *)

Definition tryToLock_start (this : Lock) : out tryToLock_pc :=
  mkOut (Await TryResolve) this [EvResolve "rda-lock"] [].

Definition tryToLock_resume (pc : tryToLock_pc) (a : answer) (this : Lock)
  : option (out tryToLock_pc) :=
  match pc with
  | TryResolve =>
      match a with
      | AResolved lockServiceHost =>
          Some (mkOut (Await TrySend) this
                      [EvPost lockServiceHost (ttl this) (resourceId this)] [])
      | ARejected e => Some (mkOut (Raise e) this [] [])
      | _ => None
      end
  | TrySend =>
      match expect [201; 409] a with
      | Some (Normal status) =>
          if status =? 201
          then Some (mkOut (Await TryGetData) this [EvGetData] [])
          else Some (mkOut (Return VUndefined) this [] [])
      | Some (Throw e) => Some (mkOut (Raise e) this [] [])
      | None => None
      end
  | TryGetData =>
      match a with
      | AData None => Some (mkOut (Raise ErrInsufficientData) this [] [])
      | AData (Some id) =>
          if negb (truthy id)
          then Some (mkOut (Raise ErrInsufficientData) this [] [])
          else Some (mkOut (Return id) this [] [])
      | ARejected e => Some (mkOut (Raise e) this [] [])
      | _ => None
      end
  end.

(** *** free *)

(** [if (d) d.cancel()] on a delay field *)
Definition cancel_if_set (d : option Delay) : option Delay :=
  match d with
  | Some d => Some (delay_cancel d)
  | None => None
  end.

Definition free_start (ignoreStatus : bool) (this : Lock) : out free_pc :=
  if negb ignoreStatus && negb (status_is "acquired" this) then
    mkOut (Raise (ErrCannotFree (currentStatusName this))) this [] []
  else
    (* cancel the keep alive process *)
    let this := set_keepAliveTimeout (cancel_if_set (keepAliveTimeout this)) this in
    match setStatus "freeing" this with
    | (Throw e, this) => mkOut (Raise e) this [] []
    | (Normal _, this) => mkOut (Await FreeResolve) this [EvResolve "rda-lock"] []
    end.

Definition free_resume (pc : free_pc) (a : answer) (this : Lock) : option (out free_pc) :=
  match pc with
  | FreeResolve =>
      match a with
      | AResolved lockServiceHost =>
          Some (mkOut (Await FreeDelete) this [EvDelete lockServiceHost (lockId this)] [])
      | ARejected e => Some (mkOut (Raise e) this [] [])
      | _ => None
      end
  | FreeDelete =>
      match expect [200] a with
      | Some (Throw err) =>
          (* .catch((err) => { this.setStatus('failed'); throw err; }) *)
          match setStatus "failed" this with
          | (Throw e, this) => Some (mkOut (Raise e) this [] [])
          | (Normal _, this) => Some (mkOut (Raise err) this [] [])
          end
      | Some (Normal _) =>
          match setStatus "freed" this with
          | (Throw e, this) => Some (mkOut (Raise e) this [] [])
          | (Normal _, this) => Some (mkOut (Return VUndefined) this [] [])
          end
      | None => None
      end
  end.

(** *** keepAlive *)

(** [Math.round(x)] *)
Definition Math_round (x : Q) : Z := Qfloor (x + (1 # 2))%Q.

Definition keepAlive_start (this : Lock) : out keepAlive_pc :=
  (* wait two thirds of the TTL for refreshing the lock *)
  let timeoutTime :=
    Math_round (inject_Z (ttl this) * (66 # 100) * inject_Z 1000)%Q in
  let this := set_keepAliveTimeout (Some (mkDelay false)) this in
  mkOut (Await KeepWait) this [EvWait (inject_Z timeoutTime)] [].

Definition keepAlive_resume (pc : keepAlive_pc) (a : answer) (this : Lock)
  : option (out keepAlive_pc) :=
  match pc with
  | KeepWait =>
      match a with
      | AElapsed => Some (mkOut (Await KeepResolve) this [EvResolve "rda-lock"] [])
      | ARejected e => Some (mkOut (Raise e) this [] [])
      | _ => None
      end
  | KeepResolve =>
      match a with
      | AResolved lockServiceHost =>
          Some (mkOut (Await KeepPatch) this [EvPatch lockServiceHost (lockId this)] [])
      | ARejected e => Some (mkOut (Raise e) this [] [])
      | _ => None
      end
  | KeepPatch =>
      match expect [200] a with
      | Some (Throw err) =>
          match setStatus "failed" this with
          | (Throw e, this) => Some (mkOut (Raise e) this [] [])
          | (Normal _, this) => Some (mkOut (Raise err) this [] [])
          end
      | Some (Normal _) => Some (mkOut (Return VUndefined) this [] [])
      | None => None
      end
  end.

(** *** lock *)

(** [a > b] on two possibly undefined numbers *)
Definition js_gt (a b : option Z) : bool :=
  match a, b with
  | Some x, Some y => x >? y
  | _, _ => false
  end.

(** Lines 172-181: after the loop. *)
Definition lock_finish (this : Lock) : out lock_pc :=
  if status_is "acquired" this then
    if doKeepAlive this then
      (* this.keepAlive().catch(log) *)
      let k := keepAlive_start this in
      match next k with
      | Await pc => mkOut (Return VUndefined) (obj k) (emitted k) [pc]
      | Return _ => mkOut (Return VUndefined) (obj k) (emitted k) []
      | Raise e => mkOut (Return VUndefined) (obj k) (emitted k ++ [EvLog e]) []
      end
    else mkOut (Return VUndefined) this [] []
  else
    match setStatus "timeout" this with
    | (Throw e, this) => mkOut (Raise e) this [] []
    | (Normal _, this) => mkOut (Raise (ErrTimeout (timeout this))) this [] []
    end.

(** Lines 151-168: the loop body once [tryToLock] has returned [lockId]. *)
Definition lock_body (lockStart : Z) (lockId : value) (this : Lock) : out lock_pc :=
  if truthy lockId then
    (* the lock could have been canceled while the request was sent
       to the service, if that's the case, free the lock immediately *)
    if js_gt (currentStatus this) (lockStatusMap !! "acquired") then
      let f := free_start true this in
      match next f with
      | Await pc => mkOut (Await (LockInFree pc)) (obj f) (emitted f) (spawned f)
      | Raise e => mkOut (Raise e) (obj f) (emitted f) (spawned f)
      | Return _ => after (emitted f) (spawned f) (lock_finish (obj f))
      end
    else
      match setStatus "acquired" this with
      | (Throw e, this) => mkOut (Raise e) this [] []
      | (Normal _, this) => lock_finish (set_lockId lockId this)
      end
  else
    (* back off and try again *)
    let iterationCount := Z.min (backOffUpperBound this) (lockCallCount this) in
    let this := set_tryLockTimeout (Some (mkDelay false)) this in
    mkOut (Await (LockWait lockStart)) this
          [EvWait (backOffFactor this ^ iterationCount * inject_Z 1000)%Q] [].

(** Line 148: the loop test, read at clock [now]. *)
Definition lock_loop (lockStart now : Z) (this : Lock) : out lock_pc :=
  if lockStart + timeout this * 1000 >? now then
    let t := tryToLock_start this in
    match next t with
    | Await pc => mkOut (Await (LockInTry lockStart pc)) (obj t) (emitted t) (spawned t)
    | Raise e => mkOut (Raise e) (obj t) (emitted t) (spawned t)
    | Return lockId => after (emitted t) (spawned t) (lock_body lockStart lockId (obj t))
    end
  else lock_finish this.

Definition lock_start (now : Z) (this : Lock) : out lock_pc :=
  (* this will throw if the current status is not viable *)
  match setStatus "acquiring" this with
  | (Throw e, this) => mkOut (Raise e) this [] []
  | (Normal _, this) =>
      let lockStart := now in
      lock_loop lockStart now this
  end.

Definition lock_resume (pc : lock_pc) (a : answer) (now : Z) (this : Lock)
  : option (out lock_pc) :=
  match pc with
  | LockInTry lockStart pc =>
      t ← tryToLock_resume pc a this;
      Some match next t with
           | Await pc => mkOut (Await (LockInTry lockStart pc)) (obj t) (emitted t) (spawned t)
           | Raise e => mkOut (Raise e) (obj t) (emitted t) (spawned t)
           | Return lockId => after (emitted t) (spawned t) (lock_body lockStart lockId (obj t))
           end
  | LockInFree pc =>
      f ← free_resume pc a this;
      Some match next f with
           | Await pc => mkOut (Await (LockInFree pc)) (obj f) (emitted f) (spawned f)
           | Raise e => mkOut (Raise e) (obj f) (emitted f) (spawned f)
           | Return _ => after (emitted f) (spawned f) (lock_finish (obj f))
           end
  | LockWait lockStart =>
      match a with
      | AElapsed => Some (lock_loop lockStart now this)
      | ARejected e => Some (mkOut (Raise e) this [] [])
      | _ => None
      end
  end.

(** *** cancel *)

(** Lines 198-201: if the lock is in the process of being created cancel
    that process. *)
Definition cancel_tail (this : Lock) : out cancel_pc :=
  mkOut (Return VUndefined)
        (set_tryLockTimeout (cancel_if_set (tryLockTimeout this)) this) [] [].

Definition cancel_start (this : Lock) : out cancel_pc :=
  if status_is "acquired" this then
    let f := free_start false this in
    match next f with
    | Await pc => mkOut (Await (CancelInFree pc)) (obj f) (emitted f) (spawned f)
    | Raise e => mkOut (Raise e) (obj f) (emitted f) (spawned f)
    | Return _ => after (emitted f) (spawned f) (cancel_tail (obj f))
    end
  else cancel_tail this.

Definition cancel_resume (pc : cancel_pc) (a : answer) (this : Lock)
  : option (out cancel_pc) :=
  match pc with
  | CancelInFree pc =>
      f ← free_resume pc a this;
      Some match next f with
           | Await pc => mkOut (Await (CancelInFree pc)) (obj f) (emitted f) (spawned f)
           | Raise e => mkOut (Raise e) (obj f) (emitted f) (spawned f)
           | Return _ => after (emitted f) (spawned f) (cancel_tail (obj f))
           end
  end.

(** ** The handle and its pending activities *)

(** A call of a method: pending at one of its [await]s, or settled. *)
Inductive task :=
| TLock (pc : lock_pc)
| TFree (pc : free_pc)
| TCancel (pc : cancel_pc)
| TTryToLock (pc : tryToLock_pc)
| TKeepAlive (logged : bool) (pc : keepAlive_pc)   (* logged: with .catch(log) *)
| TSettled (c : completion value).

Inductive method :=
| MLock
| MCancel
| MFree (ignoreStatus : bool)
| MKeepAlive
| MTryToLock
| MSetStatus (statusName : string)
| MIsAcquired
| MGetId.

(** What happens next: the owner calls a method, or the promise that
    activity [i] awaits settles.  [now] is the clock ([Date.now()]) while
    the code runs. *)
Inductive label :=
| Call (m : method) (now : Z)
| Settle (i : nat) (a : answer) (now : Z).

Record sys := mkSys {
  handle : Lock;
  tasks : list task;
  trace : list event;
}.

Definition task_of {PC} (wrap : PC -> task) (c : control PC) : task :=
  match c with
  | Await pc => wrap pc
  | Return v => TSettled (Normal v)
  | Raise e => TSettled (Throw e)
  end.

Definition settled_of {A} (f : A -> value) (c : completion A) : task :=
  match c with
  | Normal a => TSettled (Normal (f a))
  | Throw e => TSettled (Throw e)
  end.

(** [.catch(log)] on a background keep-alive activity *)
Definition logged_keepAlive (o : out keepAlive_pc) : out keepAlive_pc :=
  match next o with
  | Raise e => mkOut (Return VUndefined) (obj o) (emitted o ++ [EvLog e]) (spawned o)
  | _ => o
  end.

Definition background (bg : list keepAlive_pc) : list task :=
  TKeepAlive true <$> bg.

(** A new call is appended to the activities. *)
Definition called {PC} (wrap : PC -> task) (s : sys) (o : out PC) : sys :=
  mkSys (obj o)
        (tasks s ++ [task_of wrap (next o)] ++ background (spawned o))
        (trace s ++ emitted o).

(** Activity [i] moves on. *)
Definition resumed {PC} (wrap : PC -> task) (s : sys) (i : nat) (o : out PC) : sys :=
  mkSys (obj o)
        (<[i := task_of wrap (next o)]> (tasks s) ++ background (spawned o))
        (trace s ++ emitted o).

Definition sys_step (l : label) (s : sys) : option sys :=
  match l with
  | Call MLock now => Some (called TLock s (lock_start now (handle s)))
  | Call MCancel _ => Some (called TCancel s (cancel_start (handle s)))
  | Call (MFree ignoreStatus) _ => Some (called TFree s (free_start ignoreStatus (handle s)))
  | Call MKeepAlive _ => Some (called (TKeepAlive false) s (keepAlive_start (handle s)))
  | Call MTryToLock _ => Some (called TTryToLock s (tryToLock_start (handle s)))
  | Call (MSetStatus statusName) _ =>
      let '(c, this) := setStatus statusName (handle s) in
      Some (mkSys this (tasks s ++ [settled_of (fun _ => VUndefined) c]) (trace s))
  | Call MIsAcquired _ =>
      Some (mkSys (handle s) (tasks s ++ [TSettled (Normal (VBool (isAcquired (handle s))))])
                  (trace s))
  | Call MGetId _ =>
      Some (mkSys (handle s) (tasks s ++ [settled_of id (getId (handle s))]) (trace s))
  | Settle i a now =>
      t ← tasks s !! i;
      match t with
      | TLock pc => resumed TLock s i <$> lock_resume pc a now (handle s)
      | TFree pc => resumed TFree s i <$> free_resume pc a (handle s)
      | TCancel pc => resumed TCancel s i <$> cancel_resume pc a (handle s)
      | TTryToLock pc => resumed TTryToLock s i <$> tryToLock_resume pc a (handle s)
      | TKeepAlive true pc =>
          resumed (TKeepAlive true) s i <$> (logged_keepAlive <$> keepAlive_resume pc a (handle s))
      | TKeepAlive false pc =>
          resumed (TKeepAlive false) s i <$> keepAlive_resume pc a (handle s)
      | TSettled _ => None
      end
  end.

(** A whole history. *)
Fixpoint run (ls : list label) (s : sys) : option sys :=
  match ls with
  | [] => Some s
  | l :: ls => s' ← sys_step l s; run ls s'
  end.

(** A handle fresh from its constructor, with nothing pending. *)
Definition boot (this : Lock) : sys := mkSys this [] [].

(** ** The vocabulary of the properties *)

(** The two status fields hold a name of the map and its code. *)
Definition wf (this : Lock) : Prop :=
  ∃ n r, currentStatusName this = Some n ∧ currentStatus this = Some r
         ∧ lockStatusMap !! n = Some r.

(** Both status fields of [b] are those of [a]. *)
Definition same_status (a b : Lock) : Prop :=
  currentStatusName b = currentStatusName a ∧ currentStatus b = currentStatus a.

(** The rank the map gives to the handle's status name. *)
Definition rank (this : Lock) : option Z :=
  n ← currentStatusName this; lockStatusMap !! n.

(** The status of [b] ranks strictly above the status of [a]. *)
Definition higher (a b : Lock) : Prop :=
  ∃ ra rb, rank a = Some ra ∧ rank b = Some rb ∧ ra < rb.

(** The fields no method assigns after construction. *)
Definition config_kept (a b : Lock) : Prop :=
  registryClient b = registryClient a ∧ resourceId b = resourceId a
  ∧ ttl b = ttl a ∧ timeout b = timeout a ∧ doKeepAlive b = doKeepAlive a
  ∧ lockCallCount b = lockCallCount a ∧ backOffFactor b = backOffFactor a
  ∧ backOffUpperBound b = backOffUpperBound a.

(** [b] is a later state of [a]. *)
Definition moves (a b : Lock) : Prop :=
  wf b ∧ (same_status a b ∨ higher a b) ∧ config_kept a b.

(** The order in which the spec lists the statuses. *)
Definition status_order : list string :=
  ["initialized"; "acquiring"; "acquired"; "freeing"; "freed"; "canceled"; "timeout"; "failed"].

(** Handles and histories the examples run on: a client, the arguments and
    the handle of [createLock('my-resource')], the handle of [adoptLock(7)],
    and a handle that has been freed. *)
Definition demo_client : LockClient := mkLockClient (VObj "registry").

Definition demo_args : LockArgs :=
  mkLockArgs (Some true) VUndefined (VObj "registry") (VStr "my-resource") (Some 60) (Some 30).

Definition demo_lock : Lock :=
  mkLock (VObj "registry") VUndefined (VStr "my-resource")
         (Some "initialized") (Some 100) 30 60 true 0 (13 # 10)%Q 15 None None.

Definition demo_adopted : Lock :=
  mkLock (VObj "registry") (VNum 7) VUndefined
         (Some "acquired") (Some 300) 30 60 true 0 (13 # 10)%Q 15 None None.

(** [lock()], one conflict, the back-off wait, and a second create request
    on its way. *)
Definition two_conflicts : list label :=
  [ Call MLock 0;
    Settle 0 (AResolved "host") 1; Settle 0 (AResponse 409) 2; Settle 0 AElapsed 1002;
    Settle 0 (AResolved "host") 1003 ].

Definition demo_freed : Lock :=
  mkLock (VObj "registry") VUndefined (VStr "my-resource")
         (Some "freed") (Some 500) 30 60 true 0 (13 # 10)%Q 15 None None.

(** The renew requests of a trace. *)
Definition is_renew (e : event) : bool :=
  match e with EvPatch _ _ => true | _ => false end.

(** A lock acquired at the first attempt, its keep-alive delay elapsed, and
    one renewal answered with 200. *)
Definition one_renewal : list label :=
  [ Call MLock 0;
    Settle 0 (AResolved "host") 1; Settle 0 (AResponse 201) 2;
    Settle 0 (AData (Some (VNum 7))) 3;
    Settle 1 AElapsed 19803;
    Settle 1 (AResolved "host") 19804; Settle 1 (AResponse 200) 19805 ].

(** ** hasLock *)

(** [LockClient.hasLock(resourceId)]: it asks the registry for the service,
    sends one GET for the resource and answers whether the status was 200.
    It touches no handle; its requests are events of the client. *)
Inductive hasLock_pc := HasResolve | HasSend.

Inductive client_event :=
| CEvResolve (service : string)                 (* registryClient.resolve(service) *)
| CEvGet (host : string) (resourceId : value).  (* GET host/rda-lock.lock/resourceId *)

Record client_out := mkClientOut {
  client_next : control hasLock_pc;
  client_emitted : list client_event;
}.

Definition hasLock_start (resourceId : value) : client_out :=
  mkClientOut (Await HasResolve) [CEvResolve "rda-lock"].


(** ** More vocabulary *)

(** The lock id of [b] is that of [a], or [a] was below [acquired] and [b] is
    at [acquired] or later. *)
Definition granted (a b : Lock) : Prop :=
  lockId b = lockId a
  ∨ ∃ ra rb, rank a = Some ra ∧ rank b = Some rb ∧ ra < 300 ∧ 300 ≤ rb.

(** [b] is a later state of the well-formed [a], lock id included. *)
Definition keeps (a b : Lock) : Prop := wf a ∧ moves a b ∧ granted a b.

(** A create request that carries the ttl and the resource of [this]. *)
Definition post_of (this : Lock) (e : event) : Prop :=
  match e with
  | EvPost _ t r => t = ttl this ∧ r = resourceId this
  | _ => True
  end.

(** The keep-alive activities among the pending calls, and the direct calls
    of [keepAlive()] in a history. *)
Definition is_keepAlive_task (t : task) : bool :=
  match t with TKeepAlive _ _ => true | _ => false end.

Definition calls_keepAlive (l : label) : bool :=
  match l with Call MKeepAlive _ => true | _ => false end.

(** A piece of code that started no keep-alive activity and sent no renew
    request. *)
Definition quiet {PC} (o : out PC) : Prop :=
  spawned o = [] ∧ Forall (λ e, is_renew e = false) (emitted o).

(** * Properties *)

(** ** The status map *)

Lemma lockStatusMap_cases n r :
  lockStatusMap !! n = Some r →
  (n = "initialized" ∧ r = 100) ∨ (n = "acquiring" ∧ r = 200) ∨
  (n = "acquired" ∧ r = 300) ∨ (n = "freeing" ∧ r = 400) ∨
  (n = "freed" ∧ r = 500) ∨ (n = "canceled" ∧ r = 850) ∨
  (n = "timeout" ∧ r = 900) ∨ (n = "failed" ∧ r = 999).
Proof.
  intros H. apply elem_of_list_to_map_2 in H.
  unfold lockStatusEntries in H.
  repeat (apply elem_of_cons in H as [H | H]; [simplify_eq; tauto |]).
  by apply elem_of_nil in H.
Qed.

Lemma lockStatusMap_bounds n r : lockStatusMap !! n = Some r → 100 ≤ r ≤ 999.
Proof. intros H. apply lockStatusMap_cases in H. lia. Qed.

Lemma lockStatusMap_failed : lockStatusMap !! "failed" = Some 999.
Proof. by vm_compute. Qed.

(** ** Handles whose two status fields agree with the map *)

Lemma wf_rank this : wf this → ∃ r, rank this = Some r ∧ currentStatus this = Some r.
Proof. intros (n & r & Hn & Hr & Hm). exists r. unfold rank. by rewrite Hn. Qed.

Lemma same_status_rank a b : same_status a b → rank b = rank a.
Proof. intros [H _]. unfold rank. by rewrite H. Qed.

Lemma moves_refl a : wf a → moves a a.
Proof. intros H. repeat split; auto. by left. Qed.

Lemma moves_trans a b c : moves a b → moves b c → moves a c.
Proof.
  intros (Hb & Hab & Kab) (Hc & Hbc & Kbc). split; [done|]. split.
  - destruct Hab as [Hab | (ra & rb & Ha & Hb' & Hlt)], Hbc as [Hbc | (rb' & rc & Hb'' & Hc' & Hlt')].
    + left. destruct Hab, Hbc. split; congruence.
    + right. exists rb', rc. rewrite <- (same_status_rank _ _ Hab). auto.
    + right. exists ra, rb. rewrite (same_status_rank _ _ Hbc). auto.
    + right. exists ra, rc. split; [done|]. split; [done|].
      rewrite Hb' in Hb''. simplify_eq. lia.
  - unfold config_kept in *. intuition congruence.
Qed.

Lemma moves_set_lockId a b v : moves a b → moves a (set_lockId v b).
Proof. intros H. eapply moves_trans; [exact H|]. destruct H as [H _]. by apply moves_refl in H. Qed.

Lemma moves_set_tryLockTimeout a b d : moves a b → moves a (set_tryLockTimeout d b).
Proof. intros H. eapply moves_trans; [exact H|]. destruct H as [H _]. by apply moves_refl in H. Qed.

Lemma moves_set_keepAliveTimeout a b d : moves a b → moves a (set_keepAliveTimeout d b).
Proof. intros H. eapply moves_trans; [exact H|]. destruct H as [H _]. by apply moves_refl in H. Qed.

(** ** setStatus *)

(** The three ways [setStatus] can end on a well-formed handle. *)
Lemma setStatus_spec n a c b :
  wf a → setStatus n a = (c, b) →
  (∃ r cur, c = Normal tt ∧ lockStatusMap !! n = Some r ∧ currentStatus a = Some cur
            ∧ cur < r ∧ b = set_status (Some n) (Some r) a)
  ∨ (∃ r cur, c = Throw (ErrStatusNotHigher (currentStatusName a) (Some cur) n r)
              ∧ lockStatusMap !! n = Some r ∧ currentStatus a = Some cur ∧ r ≤ cur ∧ b = a)
  ∨ (∃ cur, c = Throw (ErrInvalidStatus n) ∧ lockStatusMap !! n = None
            ∧ currentStatus a = Some cur ∧ cur < 999
            ∧ b = set_status (Some "failed") (Some 999) a)
  ∨ (c = Throw (ErrStatusNotHigher (currentStatusName a) (Some 999) "failed" 999)
     ∧ lockStatusMap !! n = None ∧ currentStatus a = Some 999 ∧ b = a).
Proof.
  intros (m & cur & Hm & Hcur & Hmap) H.
  pose proof (lockStatusMap_bounds _ _ Hmap) as Hb.
  unfold setStatus in H. destruct (lockStatusMap !! n) as [r|] eqn:Hn.
  - unfold setStatus_known in H. rewrite Hcur, Z.geb_leb in H.
    destruct (Z.leb_spec r cur) as [Hge | Hge].
    + replace (cur =? 0) with false in H by (symmetry; apply Z.eqb_neq; lia).
      simpl in H. simplify_eq. right; left. exists r, cur. auto.
    + rewrite andb_false_r in H. simplify_eq. left. exists r, cur. auto with lia.
  - rewrite lockStatusMap_failed in H. unfold setStatus_known in H. rewrite Hcur in H.
    replace (cur =? 0) with false in H by (symmetry; apply Z.eqb_neq; lia).
    rewrite Z.geb_leb in H. simpl in H.
    destruct (Z.leb_spec 999 cur) as [Hge | Hge]; simplify_eq.
    + right; right; right. assert (cur = 999) by lia. subst. auto.
    + right; right; left. exists cur. auto.
Qed.

Lemma setStatus_moves n a c b : wf a → setStatus n a = (c, b) → moves a b.
Proof.
  intros Hwf H. pose proof Hwf as (m & cur0 & Hm & Hcur0 & Hmap).
  destruct (setStatus_spec _ _ _ _ Hwf H)
    as [(r & cur & -> & Hn & Hcur & Hlt & ->) | [(r & cur & _ & _ & _ & _ & ->)
       | [(cur & _ & Hn & Hcur & Hlt & ->) | (_ & _ & _ & ->)]]];
    try by apply moves_refl.
  - split; [by exists n, r|]. split; [|by repeat split]. right. exists cur, r.
    unfold rank; simpl. rewrite Hm; simpl. split; [congruence|done].
  - split; [by exists "failed", 999|]. split; [|by repeat split]. right. exists cur, 999.
    unfold rank; simpl. rewrite Hm; simpl. split; [congruence|done].
Qed.

Lemma moves_setStatus a b n c b' : moves a b → setStatus n b = (c, b') → moves a b'.
Proof. intros H E. eapply moves_trans; [exact H|]. eapply setStatus_moves; [apply H | exact E]. Qed.

(** ** Every piece of code only moves the handle forward *)

Create HintDb moves discriminated.
#[local] Hint Resolve moves_refl moves_set_lockId moves_set_tryLockTimeout
  moves_set_keepAliveTimeout moves_setStatus : moves.

Ltac split_code :=
  repeat (simplify_eq/=; try case_match); simplify_eq/=.

Lemma tryToLock_start_moves a b : moves a b → moves a (obj (tryToLock_start b)).
Proof. done. Qed.

Lemma tryToLock_resume_moves a b pc ans o :
  moves a b → tryToLock_resume pc ans b = Some o → moves a (obj o).
Proof. intros H E. unfold tryToLock_resume in E. split_code; done. Qed.

Lemma free_start_moves a b ign : moves a b → moves a (obj (free_start ign b)).
Proof. intros H. unfold free_start. split_code; eauto with moves. Qed.

Lemma free_resume_moves a b pc ans o :
  moves a b → free_resume pc ans b = Some o → moves a (obj o).
Proof. intros H E. unfold free_resume in E. split_code; eauto with moves. Qed.

Lemma keepAlive_start_moves a b : moves a b → moves a (obj (keepAlive_start b)).
Proof. intros H. unfold keepAlive_start. simpl. eauto with moves. Qed.

Lemma keepAlive_resume_moves a b pc ans o :
  moves a b → keepAlive_resume pc ans b = Some o → moves a (obj o).
Proof. intros H E. unfold keepAlive_resume in E. split_code; eauto with moves. Qed.

#[local] Hint Resolve tryToLock_start_moves tryToLock_resume_moves free_start_moves
  free_resume_moves keepAlive_start_moves keepAlive_resume_moves : moves.

Lemma lock_finish_moves a b : moves a b → moves a (obj (lock_finish b)).
Proof. intros H. unfold lock_finish. split_code; eauto with moves. Qed.
#[local] Hint Resolve lock_finish_moves : moves.

Lemma lock_body_moves a b lockStart v : moves a b → moves a (obj (lock_body lockStart v b)).
Proof. intros H. unfold lock_body. split_code; eauto 6 with moves. Qed.
#[local] Hint Resolve lock_body_moves : moves.

Lemma lock_loop_moves a b lockStart now : moves a b → moves a (obj (lock_loop lockStart now b)).
Proof. intros H. unfold lock_loop. split_code; eauto with moves. Qed.
#[local] Hint Resolve lock_loop_moves : moves.

Lemma lock_start_moves a b now : moves a b → moves a (obj (lock_start now b)).
Proof. intros H. unfold lock_start. split_code; eauto with moves. Qed.

Lemma lock_resume_moves a b pc ans now o :
  moves a b → lock_resume pc ans now b = Some o → moves a (obj o).
Proof.
  intros H E. unfold lock_resume in E.
  destruct pc; simplify_option_eq; split_code; eauto with moves.
Qed.

Lemma cancel_tail_moves a b : moves a b → moves a (obj (cancel_tail b)).
Proof. intros H. unfold cancel_tail. simpl. eauto with moves. Qed.
#[local] Hint Resolve cancel_tail_moves : moves.

Lemma cancel_start_moves a b : moves a b → moves a (obj (cancel_start b)).
Proof. intros H. unfold cancel_start. split_code; eauto with moves. Qed.

Lemma cancel_resume_moves a b pc ans o :
  moves a b → cancel_resume pc ans b = Some o → moves a (obj o).
Proof.
  intros H E. unfold cancel_resume in E.
  destruct pc; simplify_option_eq; split_code; eauto with moves.
Qed.

#[local] Hint Resolve lock_start_moves lock_resume_moves cancel_start_moves
  cancel_resume_moves : moves.

(** One step of the event loop. *)
Lemma sys_step_moves l s s' :
  wf (handle s) → sys_step l s = Some s' → moves (handle s) (handle s').
Proof.
  intros Hwf E. apply moves_refl in Hwf.
  destruct l as [m now | i ans now]; simpl in E.
  - destruct m; simplify_eq/=; eauto with moves.
    destruct (setStatus statusName (handle s)) eqn:Hs. simplify_eq/=. eauto with moves.
  - destruct (tasks s !! i) as [t|]; simplify_eq/=.
    destruct t as [pc|pc|pc|pc|[] pc|c]; simplify_option_eq; eauto with moves.
    unfold logged_keepAlive. case_match; simpl; eauto with moves.
    all: match goal with H : keepAlive_resume _ _ _ = Some ?o |- _ =>
           eapply keepAlive_resume_moves in H; [|eassumption] end.
    all: by match goal with H : next _ = _ |- _ => try rewrite H in * end.
Qed.

Lemma constructor_wf a this : Lock_constructor a = Normal this → wf this.
Proof.
  unfold Lock_constructor. intros H. repeat case_match; simplify_eq.
  - by exists "acquired", 300.
  - match goal with H : setStatus _ _ = _ |- _ => vm_compute in H end.
    simplify_eq. by exists "initialized", 100.
Qed.

Lemma run_moves ls : ∀ s s', wf (handle s) → run ls s = Some s' → moves (handle s) (handle s').
Proof.
  induction ls as [|l ls IH]; intros s s' Hwf E; simplify_eq/=.
  - by apply moves_refl.
  - destruct (sys_step l s) as [s1|] eqn:E1; simplify_eq/=.
    pose proof (sys_step_moves _ _ _ Hwf E1) as H1.
    eapply moves_trans; [exact H1|]. apply IH; [apply H1 | done].
Qed.

(** ** Histories of a constructed handle *)

Lemma reachable_moves a this ls s :
  Lock_constructor a = Normal this → run ls (boot this) = Some s → moves this (handle s).
Proof. intros Hc Hr. apply constructor_wf in Hc. by apply (run_moves ls (boot this)). Qed.

Lemma reachable_wf a this ls s :
  Lock_constructor a = Normal this → run ls (boot this) = Some s → wf (handle s).
Proof. intros Hc Hr. by destruct (reachable_moves _ _ _ _ Hc Hr). Qed.

(** C1.  The map ranks the statuses in the listed order, and along every
    history of a constructed handle (calls of its methods and settlings of
    what they await, in any interleaving) each step either leaves the status
    as it is or moves it to a status of strictly greater rank; a call of
    [setStatus] that succeeds always lands on the requested status, of
    strictly greater rank. *)
Theorem status_rank_strictly_increases :
  (lockStatusEntries.*1 = status_order ∧ StronglySorted Z.lt lockStatusEntries.*2) ∧
  ∀ a this ls s,
    Lock_constructor a = Normal this →
    run ls (boot this) = Some s →
    (∀ l s', sys_step l s = Some s' →
             same_status (handle s) (handle s') ∨ higher (handle s) (handle s')) ∧
    (∀ n this', setStatus n (handle s) = (Normal tt, this') →
                currentStatusName this' = Some n ∧ higher (handle s) this').
Proof.
  split.
  - split; [done|]. simpl. repeat (constructor; [|repeat constructor; lia]). constructor.
  - intros a this ls s Hc Hr. pose proof (reachable_wf _ _ _ _ Hc Hr) as Hwf. split.
    + intros l s' Hs. by destruct (sys_step_moves _ _ _ Hwf Hs) as (_ & H & _).
    + intros n this' Hs.
      destruct (setStatus_spec _ _ _ _ Hwf Hs)
        as [(r & cur & _ & Hn & Hcur & Hlt & ->) | [(? & ? & ? & _) | [(? & ? & _) | (? & _)]]];
        try discriminate.
      split; [done|]. destruct Hwf as (m & cur' & Hm & Hcur' & Hmap).
      exists cur, r. unfold rank; simpl. rewrite Hm; simpl. split; [congruence|done].
Qed.

Lemma status_rank_strictly_increases_witness :
  same_status demo_lock (set_status (Some "acquiring") (Some 200) demo_lock)
  ∨ higher demo_lock (set_status (Some "acquiring") (Some 200) demo_lock).
Proof.
  exact (proj1 (proj2 status_rank_strictly_increases demo_args demo_lock [] (boot demo_lock)
                 eq_refl eq_refl)
               (Call (MSetStatus "acquiring") 0)
               (mkSys (set_status (Some "acquiring") (Some 200) demo_lock)
                      [TSettled (Normal VUndefined)] [])
               eq_refl).
Defined.

(** ** Invalid transitions *)

(** C5, as stated, fails: an unrecognized status name makes [setStatus]
    throw, but only after it has moved the handle to [failed]. *)
Lemma setStatus_unrecognized_moves_to_failed :
  lockStatusMap !! "bogus" = None
  ∧ setStatus "bogus" demo_lock
    = (Throw (ErrInvalidStatus "bogus"), set_status (Some "failed") (Some 999) demo_lock)
  ∧ currentStatusName (setStatus "bogus" demo_lock).2 ≠ currentStatusName demo_lock.
Proof. by vm_compute. Qed.

(** C5, amended.  Setting a status whose rank is lower than or equal to the
    current rank throws and leaves the handle as it was.  Setting an
    unrecognized name throws too, after moving the handle to [failed]; the
    handle is left as it was only if it already was [failed]. *)
Theorem setStatus_invalid_transition this statusName c this' :
  wf this →
  setStatus statusName this = (c, this') →
  (∀ r cur, lockStatusMap !! statusName = Some r → rank this = Some cur → r ≤ cur →
            c = Throw (ErrStatusNotHigher (currentStatusName this) (Some cur) statusName r)
            ∧ this' = this)
  ∧ (lockStatusMap !! statusName = None →
     (rank this ≠ Some 999 →
        c = Throw (ErrInvalidStatus statusName)
        ∧ this' = set_status (Some "failed") (Some 999) this)
     ∧ (rank this = Some 999 →
        c = Throw (ErrStatusNotHigher (currentStatusName this) (Some 999) "failed" 999)
        ∧ this' = this)).
Proof.
  intros Hwf Hs. destruct (wf_rank _ Hwf) as (r0 & Hrank & Hcur0).
  rewrite Hrank.
  destruct (setStatus_spec _ _ _ _ Hwf Hs)
    as [(r & cur & -> & Hn & Hcur & Hlt & ->) | [(r & cur & -> & Hn & Hcur & Hle & ->)
       | [(cur & -> & Hn & Hcur & Hlt & ->) | (-> & Hn & Hcur & ->)]]];
    rewrite Hn; (split; [intros r' cur' ? ? ?|intros ?; split; intros ?]);
    simplify_eq; try done; lia.
Qed.

Lemma demo_adopted_wf : wf demo_adopted.
Proof. by exists "acquired", 300. Defined.

Lemma setStatus_invalid_transition_witness :
  (setStatus "acquiring" demo_adopted).1
  = Throw (ErrStatusNotHigher (Some "acquired") (Some 300) "acquiring" 200)
  ∧ (setStatus "acquiring" demo_adopted).2 = demo_adopted.
Proof.
  apply (proj1 (setStatus_invalid_transition demo_adopted "acquiring" _ _
                  demo_adopted_wf (surjective_pairing _)) 200 300).
  - reflexivity.
  - reflexivity.
  - lia.
Defined.

(** ** lock() outside [initialized] *)

Lemma rank_not_initialized n r :
  lockStatusMap !! n = Some r → n ≠ "initialized" → 200 ≤ r.
Proof.
  intros H Hne. apply lockStatusMap_cases in H.
  destruct H as [[-> ->] | H]; [done|]. intuition lia.
Qed.

Lemma lockStatusMap_acquiring : lockStatusMap !! "acquiring" = Some 200.
Proof. by vm_compute. Qed.

Lemma lock_start_not_initialized this now :
  wf this → currentStatusName this ≠ Some "initialized" →
  lock_start now this
  = mkOut (Raise (ErrStatusNotHigher (currentStatusName this) (currentStatus this)
                                     "acquiring" 200)) this [] [].
Proof.
  intros Hwf Hne. unfold lock_start.
  destruct (setStatus "acquiring" this) as [c this'] eqn:Hs.
  pose proof Hwf as (n & r & Hn & Hr & Hmap).
  assert (200 ≤ r) as Hge by (apply (rank_not_initialized n); congruence).
  destruct (setStatus_spec _ _ _ _ Hwf Hs)
    as [(r' & cur & -> & Hn' & Hcur & Hlt & ->) | [(r' & cur & -> & Hn' & Hcur & Hle & ->)
       | [(cur & -> & Hn' & _) | (-> & Hn' & _)]]];
    rewrite lockStatusMap_acquiring in Hn'; simplify_eq.
  - lia.
  - congruence.
Qed.

(** A status other than [initialized] stays other than [initialized]. *)
Lemma moves_not_initialized a b :
  wf a → moves a b →
  currentStatusName a ≠ Some "initialized" → currentStatusName b ≠ Some "initialized".
Proof.
  intros (n & r & Hn & Hr & Hmap) (Hwf & Hmv & _) Hne Hb.
  destruct Hmv as [[Hs _] | (ra & rb & Ha & Hb' & Hlt)]; [congruence|].
  unfold rank in Ha, Hb'. rewrite Hn in Ha. rewrite Hb in Hb'. simpl in *.
  assert (200 ≤ r) by (apply (rank_not_initialized n); congruence).
  vm_compute in Hb'. rewrite Hmap in Ha. simplify_eq. lia.
Qed.

(** Once [lock()] has been called, the status is not [initialized] any more. *)
Lemma lock_start_leaves_initialized this now :
  wf this → currentStatusName (obj (lock_start now this)) ≠ Some "initialized".
Proof.
  intros Hwf.
  destruct (decide (currentStatusName this = Some "initialized")) as [Hi | Hne];
    [|by rewrite lock_start_not_initialized].
  unfold lock_start.
  destruct (setStatus "acquiring" this) as [c this'] eqn:Hs.
  pose proof (setStatus_moves _ _ _ _ Hwf Hs) as Hmv.
  pose proof Hwf as (n & r & Hn & Hr & Hmap).
  rewrite Hi in Hn. simplify_eq. vm_compute in Hmap. simplify_eq.
  destruct (setStatus_spec _ _ _ _ Hwf Hs)
    as [(r' & cur & -> & Hn' & Hcur & Hlt & ->) | [(r' & cur & -> & Hn' & Hcur & Hle & ->)
       | [(cur & -> & Hn' & _) | (-> & Hn' & _)]]];
    rewrite lockStatusMap_acquiring in Hn'; simplify_eq.
  - apply (moves_not_initialized (set_status (Some "acquiring") (Some 200) this));
      [apply Hmv | | done].
    apply lock_loop_moves, moves_refl, Hmv.
  - lia.
Qed.

(** C6.  On a handle whose status is not [initialized], [lock()] throws the
    invalid-state error of [setStatus] at once: the handle is left exactly as
    it was, no request is issued, and every earlier call (pending or
    settled) is left as it was.  This covers a handle adopted with
    [adoptLock], and any later [lock()] on a handle on which [lock()] was
    called before. *)
Theorem lock_outside_initialized_fails a this ls s :
  Lock_constructor a = Normal this →
  run ls (boot this) = Some s →
  (currentStatusName (handle s) ≠ Some "initialized" →
   ∀ now, sys_step (Call MLock now) s
          = Some (mkSys (handle s)
                        (tasks s ++ [TSettled (Throw (ErrStatusNotHigher
                             (currentStatusName (handle s)) (currentStatus (handle s))
                             "acquiring" 200))])
                        (trace s)))
  ∧ (truthy (arg_lockId a) = true → currentStatusName (handle s) ≠ Some "initialized")
  ∧ (∀ now s1 ls' s2, sys_step (Call MLock now) s = Some s1 → run ls' s1 = Some s2 →
                      currentStatusName (handle s2) ≠ Some "initialized").
Proof.
  intros Hc Hr. pose proof (reachable_wf _ _ _ _ Hc Hr) as Hwf.
  split; [|split].
  - intros Hne now. simpl. rewrite lock_start_not_initialized by done.
    unfold called; simpl. by rewrite !app_nil_r.
  - intros Hid. pose proof (constructor_wf _ _ Hc) as Hwf0.
    apply (moves_not_initialized this); [done|by eapply reachable_moves|].
    unfold Lock_constructor in Hc. rewrite Hid in Hc.
    destruct (truthy (arg_registryClient a)); by simplify_eq.
  - intros now s1 ls' s2 Hs Hr2. simpl in Hs. simplify_eq.
    set (s1 := called TLock s (lock_start now (handle s))) in *.
    assert (wf (handle s1)) as Hwf1 by apply (lock_start_moves _ _ now (moves_refl _ Hwf)).
    apply (moves_not_initialized (handle s1)); [done|by apply (run_moves ls')|].
    by apply lock_start_leaves_initialized.
Qed.

Lemma lock_outside_initialized_fails_witness :
  sys_step (Call MLock 5) (boot demo_adopted)
  = Some (mkSys demo_adopted
                [TSettled (Throw (ErrStatusNotHigher (Some "acquired") (Some 300)
                                                     "acquiring" 200))] []).
Proof.
  exact (proj1 (lock_outside_initialized_fails
                  (mkLockArgs (Some true) (VNum 7) (VObj "registry") VUndefined
                              (Some 60) (Some 30))
                  demo_adopted [] (boot demo_adopted) eq_refl eq_refl)
               ltac:(discriminate) 5).
Defined.

(** ** cancel() *)

Lemma wf_acquired this :
  wf this → currentStatusName this = Some "acquired" → currentStatus this = Some 300.
Proof.
  intros (n & r & Hn & Hr & Hmap) Ha. rewrite Ha in Hn. simplify_eq.
  vm_compute in Hmap. congruence.
Qed.

Lemma lockStatusMap_freeing : lockStatusMap !! "freeing" = Some 400.
Proof. by vm_compute. Qed.

(** [free()] on an acquired handle goes to [freeing] and asks the registry
    for the service. *)
Lemma free_start_acquired this ign :
  wf this → currentStatusName this = Some "acquired" →
  free_start ign this
  = mkOut (Await FreeResolve)
          (set_status (Some "freeing") (Some 400)
             (set_keepAliveTimeout (cancel_if_set (keepAliveTimeout this)) this))
          [EvResolve "rda-lock"] [].
Proof.
  intros Hwf Ha. pose proof (wf_acquired _ Hwf Ha) as Hc.
  unfold free_start, status_is. rewrite bool_decide_eq_true_2 by done.
  rewrite andb_false_r.
  unfold setStatus. rewrite lockStatusMap_freeing.
  unfold setStatus_known. simpl. by rewrite Hc.
Qed.



(** ** The factory *)

(** The handle of the README's first example. *)
Example createLock_default :
  createLock (mkLockClient (VObj "registry")) (VStr "my-resource") None
  = Normal (mkLock (VObj "registry") VUndefined (VStr "my-resource")
                   (Some "initialized") (Some 100) 30 60 true 0 (13 # 10)%Q 15 None None).
Proof. vm_compute. reflexivity. Qed.

(** C9, as stated, fails: the empty string is a string, and [createLock]
    accepts it. *)
Lemma createLock_accepts_empty_string :
  createLock demo_client (VStr "") None
  = Normal (mkLock (VObj "registry") VUndefined (VStr "")
                   (Some "initialized") (Some 100) 30 60 true 0 (13 # 10)%Q 15 None None).
Proof. by vm_compute. Qed.

Lemma constructed_client_truthy rc host c :
  LockClient_constructor rc host = Normal c → truthy (client_registryClient c) = true.
Proof.
  unfold LockClient_constructor. intros H.
  destruct (truthy rc) eqn:E; [by simplify_eq|].
  destruct (truthy host); by simplify_eq.
Qed.

(** C9, amended.  [createLock] checks that [resourceId] is a string: every
    value that is not a string is rejected with the construction error, and
    every string (the empty one too) gives a fresh handle in [initialized]
    with that resource, no lock id, and the options given or else their
    defaults ttl = 30, timeout = 60, keepAlive = true. *)
Theorem createLock_contract rc host client resourceId options :
  LockClient_constructor rc host = Normal client →
  (is_string resourceId = false →
   createLock client resourceId options = Throw ErrResourceIdMissing)
  ∧ (∀ s, resourceId = VStr s →
     createLock client resourceId options
     = Normal (mkLock (client_registryClient client) VUndefined (VStr s)
                      (Some "initialized") (Some 100)
                      (default 30 (opt_ttl (default no_options options)))
                      (default 60 (opt_timeout (default no_options options)))
                      (default true (opt_keepAlive (default no_options options)))
                      0 (13 # 10)%Q 15 None None))
  ∧ createLock client resourceId None
    = createLock client resourceId (Some (mkOptions (Some 30) (Some 60) (Some true))).
Proof.
  intros Hc. apply constructed_client_truthy in Hc.
  unfold createLock, Lock_constructor. simpl. rewrite Hc.
  split; [|split].
  - by intros ->.
  - by intros s ->.
  - done.
Qed.

Lemma createLock_contract_witness :
  createLock demo_client (VNum 42) None = Throw ErrResourceIdMissing.
Proof.
  apply (proj1 (createLock_contract (VObj "registry") VUndefined demo_client
                  (VNum 42) None eq_refl)).
  reflexivity.
Defined.

(** C10.  For a lock id that is falsy (0, NaN, the empty string, null,
    undefined, false), [adoptLock] does not give a handle: the constructor
    takes the branch of a fresh lock, finds no [resourceId] string, and
    throws the construction error that asks for one. *)
Theorem adoptLock_falsy_lockId rc host client lockId options :
  LockClient_constructor rc host = Normal client →
  truthy lockId = false →
  adoptLock client lockId options = Throw ErrResourceIdMissing.
Proof.
  intros Hc Hf. apply constructed_client_truthy in Hc.
  unfold adoptLock, Lock_constructor. simpl. by rewrite Hc, Hf.
Qed.

Lemma adoptLock_falsy_lockId_witness :
  adoptLock demo_client (VNum 0) None = Throw ErrResourceIdMissing.
Proof.
  apply (adoptLock_falsy_lockId (VObj "registry") VUndefined demo_client (VNum 0) None).
  - reflexivity.
  - reflexivity.
Defined.

(** ** free() *)

Lemma setStatus_ok n r cur this :
  lockStatusMap !! n = Some r → currentStatus this = Some cur → cur < r →
  setStatus n this = (Normal tt, set_status (Some n) (Some r) this).
Proof.
  intros Hn Hc Hlt. unfold setStatus, setStatus_known. rewrite Hn, Hc.
  replace (cur >=? r) with false by (symmetry; rewrite Z.geb_leb; apply Z.leb_gt; lia).
  by rewrite andb_false_r.
Qed.

Lemma setStatus_reject n r cur this :
  lockStatusMap !! n = Some r → currentStatus this = Some cur → cur ≠ 0 → r ≤ cur →
  setStatus n this
  = (Throw (ErrStatusNotHigher (currentStatusName this) (Some cur) n r), this).
Proof.
  intros Hn Hc Hz Hle. unfold setStatus, setStatus_known. rewrite Hn, Hc.
  replace (cur >=? r) with true by (symmetry; rewrite Z.geb_leb; apply Z.leb_le; lia).
  by replace (cur =? 0) with false by (symmetry; apply Z.eqb_neq; lia).
Qed.

(** C7, as stated, fails: on an adopted (acquired) handle whose registry
    lookup rejects, [free()] ends with that error and the handle rests in
    [freeing]. *)
Lemma free_rests_in_freeing_when_resolve_rejects :
  adoptLock demo_client (VNum 7) None = Normal demo_adopted
  ∧ run [Call (MFree false) 0; Settle 0 (ARejected (ErrRejected "registry down")) 1]
        (boot demo_adopted)
    = Some (mkSys (set_status (Some "freeing") (Some 400) demo_adopted)
                  [TSettled (Throw (ErrRejected "registry down"))]
                  [EvResolve "rda-lock"]).
Proof. by vm_compute. Qed.

(** C7, amended.  [free()] without [ignoreStatus] throws on every handle that
    is not [acquired], and with [ignoreStatus] it passes that check.  On an
    acquired handle it moves to [freeing] and asks the registry for the
    service; once the registry has answered, it issues the delete for the
    held lock id and ends in [freed] when the delete succeeds, and in
    [failed], with the error of the delete raised again, when it does not. *)
Theorem free_contract this :
  wf this →
  (currentStatusName this ≠ Some "acquired" →
   free_start false this
   = mkOut (Raise (ErrCannotFree (currentStatusName this))) this [] [])
  ∧ (∀ r, rank this = Some r → r < 400 → next (free_start true this) = Await FreeResolve)
  ∧ (currentStatusName this = Some "acquired" →
     let f := free_start false this in
     next f = Await FreeResolve
     ∧ emitted f = [EvResolve "rda-lock"]
     ∧ currentStatusName (obj f) = Some "freeing"
     ∧ ∀ host,
         free_resume FreeResolve (AResolved host) (obj f)
         = Some (mkOut (Await FreeDelete) (obj f) [EvDelete host (lockId this)] [])
         ∧ free_resume FreeDelete (AResponse 200) (obj f)
           = Some (mkOut (Return VUndefined) (set_status (Some "freed") (Some 500) (obj f)) [] [])
         ∧ ∀ a err, expect [200] a = Some (Throw err) →
             free_resume FreeDelete a (obj f)
             = Some (mkOut (Raise err) (set_status (Some "failed") (Some 999) (obj f)) [] [])).
Proof.
  intros Hwf. split; [|split].
  - intros Hne. unfold free_start, status_is. by rewrite bool_decide_eq_false_2.
  - intros r Hr Hlt. destruct (wf_rank _ Hwf) as (r' & Hr' & Hc). simplify_eq.
    unfold free_start. simpl.
    by rewrite (setStatus_ok "freeing" 400 r).
  - intros Ha f. subst f. rewrite (free_start_acquired _ false Hwf Ha). simpl.
    repeat split; try done.
    intros a err He. rewrite He. by rewrite (setStatus_ok "failed" 999 400).
Qed.

Lemma free_contract_witness :
  free_resume FreeDelete (AResponse 200) (obj (free_start false demo_adopted))
  = Some (mkOut (Return VUndefined)
                (set_status (Some "freed") (Some 500) (obj (free_start false demo_adopted)))
                [] []).
Proof.
  exact (proj1 (proj2 (proj2 (proj2 (proj2 (proj2 (proj2
           (free_contract demo_adopted demo_adopted_wf)) eq_refl))) "host"))).
Defined.

(** ** The acquisition loop *)

Lemma constructor_config a this :
  Lock_constructor a = Normal this →
  lockCallCount this = 0 ∧ backOffFactor this = (13 # 10)%Q ∧ backOffUpperBound this = 15.
Proof.
  unfold Lock_constructor. intros H. repeat case_match; simplify_eq; [done|].
  match goal with H : setStatus _ _ = _ |- _ => vm_compute in H end. by simplify_eq.
Qed.

Lemma reachable_config a this ls s :
  Lock_constructor a = Normal this → run ls (boot this) = Some s →
  lockCallCount (handle s) = 0 ∧ backOffFactor (handle s) = (13 # 10)%Q
  ∧ backOffUpperBound (handle s) = 15.
Proof.
  intros Hc Hr. destruct (constructor_config _ _ Hc) as (H1 & H2 & H3).
  destruct (reachable_moves _ _ _ _ Hc Hr) as (_ & _ & K).
  unfold config_kept in K. simpl in K. intuition congruence.
Qed.

(** C3, what the code does.  No method ever assigns [lockCallCount]: in
    every history of a constructed handle it is 0 before and after a
    conflict (409) answer, and the wait that follows the conflict is
    1.3 ^ min(15, 0) seconds, that is 1000 ms, whatever the number of
    attempts made so far. *)
Theorem conflict_wait_is_constant a this ls s i lockStart now :
  Lock_constructor a = Normal this →
  run ls (boot this) = Some s →
  tasks s !! i = Some (TLock (LockInTry lockStart TrySend)) →
  ∃ s', sys_step (Settle i (AResponse 409) now) s = Some s'
        ∧ lockCallCount (handle s) = 0
        ∧ lockCallCount (handle s') = 0
        ∧ trace s' = (trace s ++ [EvWait (inject_Z 1000)])%list
        ∧ tasks s' !! i = Some (TLock (LockWait lockStart)).
Proof.
  intros Hc Hr Ht. destruct (reachable_config _ _ _ _ Hc Hr) as (H1 & H2 & H3).
  eexists. simpl. rewrite Ht. simpl. split; [reflexivity|]. simpl.
  rewrite H1, H2, H3. repeat split; try done.
  rewrite app_nil_r. apply list_lookup_insert_eq. by eapply lookup_lt_Some.
Qed.

Lemma conflict_wait_is_constant_witness :
  ∃ s', sys_step (Settle 0 (AResponse 409) 1004)
                 (mkSys (set_tryLockTimeout (Some (mkDelay false))
                           (set_status (Some "acquiring") (Some 200) demo_lock))
                        [TLock (LockInTry 0 TrySend)]
                        [EvResolve "rda-lock"; EvPost "host" 30 (VStr "my-resource");
                         EvWait (inject_Z 1000);
                         EvResolve "rda-lock"; EvPost "host" 30 (VStr "my-resource")])
        = Some s'
        ∧ 0 = 0
        ∧ lockCallCount (handle s') = 0
        ∧ trace s'
          = [EvResolve "rda-lock"; EvPost "host" 30 (VStr "my-resource");
             EvWait (inject_Z 1000);
             EvResolve "rda-lock"; EvPost "host" 30 (VStr "my-resource");
             EvWait (inject_Z 1000)]
        ∧ tasks s' !! 0%nat = Some (TLock (LockWait 0)).
Proof.
  exact (conflict_wait_is_constant demo_args demo_lock two_conflicts _ 0 0 1004
           eq_refl eq_refl eq_refl).
Defined.

(** ** A lock granted to a handle that has moved past [acquired] *)

Lemma lockStatusMap_acquired : lockStatusMap !! "acquired" = Some 300.
Proof. by vm_compute. Qed.

Lemma rank_past_acquired n r : lockStatusMap !! n = Some r → 300 < r → 400 ≤ r.
Proof. intros H Hlt. apply lockStatusMap_cases in H. intuition lia. Qed.

(** C4, what the code does.  When [tryToLock] hands back a lock id and the
    handle's status is past [acquired], the loop body calls [free(true)],
    whose [setStatus('freeing')] throws because the status is already
    [freeing] or later: no delete is issued, the status stays, and [lock()]
    ends with that error. *)
Theorem lock_body_past_acquired this lockStart lockId r :
  wf this → currentStatus this = Some r → 300 < r → truthy lockId = true →
  lock_body lockStart lockId this
  = mkOut (Raise (ErrStatusNotHigher (currentStatusName this) (Some r) "freeing" 400))
          (set_keepAliveTimeout (cancel_if_set (keepAliveTimeout this)) this) [] [].
Proof.
  intros Hwf Hc Hlt Ht. pose proof Hwf as (n & r' & Hn & Hr & Hmap).
  assert (r' = r) as -> by congruence.
  pose proof (rank_past_acquired _ _ Hmap Hlt) as Hge.
  unfold lock_body. rewrite Ht, Hc, lockStatusMap_acquired. simpl.
  replace (r >? 300) with true by (symmetry; apply Z.gtb_lt; lia).
  unfold free_start. simpl.
  rewrite (setStatus_reject "freeing" 400 r) by (done || lia).
  done.
Qed.

Lemma lock_body_past_acquired_witness :
  lock_body 0 (VNum 7) demo_freed
  = mkOut (Raise (ErrStatusNotHigher (Some "freed") (Some 500) "freeing" 400))
          demo_freed [] [].
Proof.
  apply (lock_body_past_acquired demo_freed 0 (VNum 7) 500).
  - by exists "freed", 500.
  - reflexivity.
  - lia.
  - reflexivity.
Defined.

(** The same through the public methods: [free(true)] is called while the
    create request is in flight; when the granted id 7 arrives, [lock()]
    ends with the error of [setStatus] and no delete for lock 7 is issued. *)
Example granted_lock_is_not_freed :
  run [ Call MLock 0;
        Settle 0 (AResolved "host") 1; Settle 0 (AResponse 201) 2;
        Call (MFree true) 3;
        Settle 1 (AResolved "host") 4; Settle 1 (AResponse 200) 5;
        Settle 0 (AData (Some (VNum 7))) 6 ]
      (boot demo_lock)
  = Some (mkSys demo_freed
                [ TSettled (Throw (ErrStatusNotHigher (Some "freed") (Some 500) "freeing" 400));
                  TSettled (Normal VUndefined) ]
                [ EvResolve "rda-lock"; EvPost "host" 30 (VStr "my-resource"); EvGetData;
                  EvResolve "rda-lock"; EvDelete "host" VUndefined ]).
Proof. by vm_compute. Qed.

(** ** The keep-alive activity *)

(** C2, what the code does.  [keepAlive()] has no loop: after a renewal
    answered with 200 it returns without a new delay or request.  In the
    history [one_renewal] the handle stays [acquired], exactly one renew
    request was issued, after a wait of 19800 ms for a ttl of 30 s, and
    nothing is pending any more: no later settling can issue another. *)
Theorem keepAlive_renews_once :
  (∀ this, keepAlive_resume KeepPatch (AResponse 200) this
           = Some (mkOut (Return VUndefined) this [] []))
  ∧ ∃ s, run one_renewal (boot demo_lock) = Some s
         ∧ currentStatusName (handle s) = Some "acquired"
         ∧ tasks s = [TSettled (Normal VUndefined); TSettled (Normal VUndefined)]
         ∧ trace s = [ EvResolve "rda-lock"; EvPost "host" 30 (VStr "my-resource"); EvGetData;
                       EvWait (inject_Z 19800);
                       EvResolve "rda-lock"; EvPatch "host" (VNum 7) ]
         ∧ filter is_renew (trace s) = [EvPatch "host" (VNum 7)]
         ∧ ∀ i a now, sys_step (Settle i a now) s = None.
Proof.
  split; [done|]. eexists. split; [by vm_compute|].
  split; [done|]. split; [done|]. split; [done|]. split; [by vm_compute|].
  intros [|[|i]] a now; reflexivity.
Qed.

(** * Further properties of the code *)

(** ** The lock id *)

Lemma moves_rank_le a b :
  wf a → moves a b → ∃ ra rb, rank a = Some ra ∧ rank b = Some rb ∧ ra ≤ rb.
Proof.
  intros Hwf (Hb & Hmv & _). destruct (wf_rank _ Hwf) as (ra & Ha & _).
  destruct Hmv as [Hs | (ra' & rb & Ha' & Hb' & Hlt)].
  - exists ra, ra. rewrite (same_status_rank _ _ Hs). auto with lia.
  - exists ra', rb. auto with lia.
Qed.

Lemma keeps_refl a : wf a → keeps a a.
Proof. intros H. split; [done|]. split; [by apply moves_refl|by left]. Qed.

Lemma keeps_trans a b c : keeps a b → keeps b c → keeps a c.
Proof.
  intros (Ha & Hab & Gab) (Hb & Hbc & Gbc). split; [done|].
  split; [by eapply moves_trans|].
  destruct (moves_rank_le _ _ Ha Hab) as (ra & rb & Hra & Hrb & Hle).
  destruct (moves_rank_le _ _ Hb Hbc) as (rb' & rc & Hrb' & Hrc & Hle').
  assert (rb' = rb) as -> by congruence.
  destruct Gab as [Eab | (x & y & Hx & Hy & Hlt & Hge)],
           Gbc as [Ebc | (x' & y' & Hx' & Hy' & Hlt' & Hge')].
  - left. congruence.
  - right. exists ra, rc. assert (x' = rb) by congruence. assert (y' = rc) by congruence.
    subst. auto with lia.
  - right. exists ra, rc. assert (x = ra) by congruence. assert (y = rb) by congruence.
    subst. auto with lia.
  - assert (y = rb) by congruence. assert (x' = rb) by congruence. lia.
Qed.

Lemma keeps_same_lockId a b c : keeps a b → moves b c → lockId c = lockId b → keeps a c.
Proof.
  intros H Hm He. eapply keeps_trans; [exact H|].
  split; [apply H|]. split; [done|by left].
Qed.

Lemma keeps_setStatus a b n c b' : keeps a b → setStatus n b = (c, b') → keeps a b'.
Proof.
  intros H E. assert (wf b) as Hb by apply H.
  apply (keeps_same_lockId a b); [done|by eapply setStatus_moves|].
  destruct (setStatus_spec _ _ _ _ Hb E)
    as [(? & ? & _ & _ & _ & _ & ->) | [(? & ? & _ & _ & _ & _ & ->)
       | [(? & _ & _ & _ & _ & ->) | (_ & _ & _ & ->)]]]; done.
Qed.

Lemma keeps_set_tryLockTimeout a b d : keeps a b → keeps a (set_tryLockTimeout d b).
Proof.
  intros H. assert (wf b) as Hb by apply H.
  apply (keeps_same_lockId a b); [done| |done].
  by apply moves_set_tryLockTimeout, moves_refl.
Qed.

Lemma keeps_set_keepAliveTimeout a b d : keeps a b → keeps a (set_keepAliveTimeout d b).
Proof.
  intros H. assert (wf b) as Hb by apply H.
  apply (keeps_same_lockId a b); [done| |done].
  by apply moves_set_keepAliveTimeout, moves_refl.
Qed.

(** The one assignment of [lockId], right after [setStatus('acquired')]. *)
Lemma keeps_acquire a b u b' v :
  keeps a b → setStatus "acquired" b = (Normal u, b') → keeps a (set_lockId v b').
Proof.
  intros H E. assert (wf b) as Hb by apply H.
  eapply keeps_trans; [exact H|]. split; [done|].
  split; [by apply moves_set_lockId, (setStatus_moves _ _ _ _ Hb E)|].
  destruct (setStatus_spec _ _ _ _ Hb E)
    as [(r & cur & _ & Hn & Hcur & Hlt & ->) | [(? & ? & ? & _) | [(? & ? & _) | (? & _)]]];
    try discriminate.
  rewrite lockStatusMap_acquired in Hn. simplify_eq.
  destruct (wf_rank _ Hb) as (rb & Hrb & Hcb).
  right. exists rb, 300. split; [done|]. split; [done|]. split; [congruence|done].
Qed.

Create HintDb keeps discriminated.
#[local] Hint Resolve keeps_refl keeps_setStatus keeps_set_tryLockTimeout
  keeps_set_keepAliveTimeout keeps_acquire : keeps.

Lemma tryToLock_resume_keeps a b pc ans o :
  keeps a b → tryToLock_resume pc ans b = Some o → keeps a (obj o).
Proof. intros H E. unfold tryToLock_resume in E. split_code; done. Qed.

Lemma free_start_keeps a b ign : keeps a b → keeps a (obj (free_start ign b)).
Proof. intros H. unfold free_start. split_code; eauto with keeps. Qed.

Lemma free_resume_keeps a b pc ans o :
  keeps a b → free_resume pc ans b = Some o → keeps a (obj o).
Proof. intros H E. unfold free_resume in E. split_code; eauto with keeps. Qed.

Lemma keepAlive_start_keeps a b : keeps a b → keeps a (obj (keepAlive_start b)).
Proof. intros H. unfold keepAlive_start. simpl. eauto with keeps. Qed.

Lemma keepAlive_resume_keeps a b pc ans o :
  keeps a b → keepAlive_resume pc ans b = Some o → keeps a (obj o).
Proof. intros H E. unfold keepAlive_resume in E. split_code; eauto with keeps. Qed.

#[local] Hint Resolve tryToLock_resume_keeps free_start_keeps free_resume_keeps
  keepAlive_start_keeps keepAlive_resume_keeps : keeps.

Lemma lock_finish_keeps a b : keeps a b → keeps a (obj (lock_finish b)).
Proof. intros H. unfold lock_finish. split_code; eauto with keeps. Qed.
#[local] Hint Resolve lock_finish_keeps : keeps.

Lemma lock_body_keeps a b lockStart v : keeps a b → keeps a (obj (lock_body lockStart v b)).
Proof. intros H. unfold lock_body. split_code; eauto 6 with keeps. Qed.
#[local] Hint Resolve lock_body_keeps : keeps.

Lemma lock_loop_keeps a b lockStart now : keeps a b → keeps a (obj (lock_loop lockStart now b)).
Proof. intros H. unfold lock_loop. split_code; eauto with keeps. Qed.
#[local] Hint Resolve lock_loop_keeps : keeps.

Lemma lock_start_keeps a b now : keeps a b → keeps a (obj (lock_start now b)).
Proof. intros H. unfold lock_start. split_code; eauto with keeps. Qed.

Lemma lock_resume_keeps a b pc ans now o :
  keeps a b → lock_resume pc ans now b = Some o → keeps a (obj o).
Proof.
  intros H E. unfold lock_resume in E.
  destruct pc; simplify_option_eq; split_code; eauto with keeps.
Qed.

Lemma cancel_tail_keeps a b : keeps a b → keeps a (obj (cancel_tail b)).
Proof. intros H. unfold cancel_tail. simpl. eauto with keeps. Qed.
#[local] Hint Resolve cancel_tail_keeps : keeps.

Lemma cancel_start_keeps a b : keeps a b → keeps a (obj (cancel_start b)).
Proof. intros H. unfold cancel_start. split_code; eauto with keeps. Qed.

Lemma cancel_resume_keeps a b pc ans o :
  keeps a b → cancel_resume pc ans b = Some o → keeps a (obj o).
Proof.
  intros H E. unfold cancel_resume in E.
  destruct pc; simplify_option_eq; split_code; eauto with keeps.
Qed.

#[local] Hint Resolve lock_start_keeps lock_resume_keeps cancel_start_keeps
  cancel_resume_keeps : keeps.

Lemma sys_step_keeps l s s' :
  wf (handle s) → sys_step l s = Some s' → keeps (handle s) (handle s').
Proof.
  intros Hwf E. apply keeps_refl in Hwf.
  destruct l as [m now | i ans now]; simpl in E.
  - destruct m; simplify_eq/=; eauto with keeps.
    destruct (setStatus statusName (handle s)) eqn:Hs. simplify_eq/=. eauto with keeps.
  - destruct (tasks s !! i) as [t|]; simplify_eq/=.
    destruct t as [pc|pc|pc|pc|[] pc|c]; simplify_option_eq; eauto with keeps.
    unfold logged_keepAlive. case_match; simpl; eauto with keeps.
    all: match goal with H : keepAlive_resume _ _ _ = Some ?o |- _ =>
           eapply keepAlive_resume_keeps in H; [|eassumption] end.
    all: by match goal with H : next _ = _ |- _ => try rewrite H in * end.
Qed.

Lemma run_keeps ls : ∀ s s', wf (handle s) → run ls s = Some s' → keeps (handle s) (handle s').
Proof.
  induction ls as [|l ls IH]; intros s s' Hwf E; simplify_eq/=.
  - by apply keeps_refl.
  - destruct (sys_step l s) as [s1|] eqn:E1; simplify_eq/=.
    pose proof (sys_step_keeps _ _ _ Hwf E1) as H1.
    eapply keeps_trans; [exact H1|]. apply IH; [apply H1 | done].
Qed.

(** What the constructor leaves: an adopted handle with its lock id, at
    [acquired] and with no resource, or a fresh handle with its resource
    string, at [initialized] and with no lock id. *)
Lemma constructor_cases a this :
  Lock_constructor a = Normal this →
  (truthy (lockId this) = true ∧ lockId this = arg_lockId a ∧ resourceId this = VUndefined
   ∧ currentStatusName this = Some "acquired" ∧ currentStatus this = Some 300)
  ∨ (lockId this = VUndefined ∧ resourceId this = arg_resourceId a
     ∧ is_string (resourceId this) = true
     ∧ currentStatusName this = Some "initialized" ∧ currentStatus this = Some 100).
Proof.
  unfold Lock_constructor. intros H.
  destruct (truthy (arg_registryClient a)); [|done].
  destruct (truthy (arg_lockId a)) eqn:Hid; [simplify_eq; by left|].
  destruct (is_string (arg_resourceId a)) eqn:Hs; [|done]. simpl in H.
  right. vm_compute in H. by simplify_eq.
Qed.

(** A truthy lock id goes with a status at [acquired] or later. *)
Lemma reachable_acquired_rank a this ls s :
  Lock_constructor a = Normal this → run ls (boot this) = Some s →
  isAcquired (handle s) = true → ∃ r, rank (handle s) = Some r ∧ 300 ≤ r.
Proof.
  intros Hc Hr Hacq. pose proof (constructor_wf _ _ Hc) as Hwf.
  destruct (run_keeps ls (boot this) s Hwf Hr) as (_ & Hmv & Hg).
  destruct Hg as [He | (ra & rb & _ & Hb & _ & Hge)]; [|by exists rb].
  destruct (moves_rank_le _ _ Hwf Hmv) as (ra & rb & Ha & Hb & Hle).
  exists rb. split; [done|]. simpl in *.
  destruct (constructor_cases _ _ Hc) as [(_ & _ & _ & Hn & _) | (Hid & _)].
  - unfold rank in Ha. rewrite Hn in Ha. vm_compute in Ha. simplify_eq. lia.
  - unfold isAcquired in Hacq. by rewrite He, Hid in Hacq.
Qed.

(** X1.  The lock id is set once: from the moment [isAcquired()] is true, no
    history of calls and settled awaits changes [lockId], and [getId()]
    keeps returning that same id. *)
Theorem lockId_is_set_once a this ls s ls' s' :
  Lock_constructor a = Normal this →
  run ls (boot this) = Some s →
  isAcquired (handle s) = true →
  run ls' s = Some s' →
  lockId (handle s') = lockId (handle s)
  ∧ getId (handle s') = Normal (lockId (handle s)).
Proof.
  intros Hc Hr Hacq Hr'.
  destruct (reachable_acquired_rank _ _ _ _ Hc Hr Hacq) as (r & Hrank & Hge).
  pose proof (reachable_wf _ _ _ _ Hc Hr) as Hwf.
  destruct (run_keeps ls' s s' Hwf Hr') as (_ & _ & Hg).
  assert (lockId (handle s') = lockId (handle s)) as He.
  { destruct Hg as [He | (ra & rb & Ha & _ & Hlt & _)]; [done|].
    rewrite Hrank in Ha. simplify_eq. lia. }
  split; [done|]. unfold getId, isAcquired in *. by rewrite He, Hacq.
Qed.

Lemma lockId_is_set_once_witness :
  lockId (set_status (Some "freeing") (Some 400) demo_adopted) = lockId demo_adopted
  ∧ getId (set_status (Some "freeing") (Some 400) demo_adopted)
    = Normal (lockId demo_adopted).
Proof.
  apply (lockId_is_set_once
           (mkLockArgs (Some true) (VNum 7) (VObj "registry") VUndefined (Some 60) (Some 30))
           demo_adopted [] (boot demo_adopted) [Call (MFree false) 0]
           (mkSys (set_status (Some "freeing") (Some 400) demo_adopted)
                  [TFree FreeResolve] [EvResolve "rda-lock"])).
  - reflexivity.
  - reflexivity.
  - reflexivity.
  - reflexivity.
Defined.

(** X2.  Before the handle has reached [acquired] there is no lock id: in
    every history of a constructed handle, while the status is
    [initialized] or [acquiring], [isAcquired()] is false and [getId()]
    throws. *)
Theorem getId_throws_before_acquired a this ls s r :
  Lock_constructor a = Normal this →
  run ls (boot this) = Some s →
  rank (handle s) = Some r → r < 300 →
  isAcquired (handle s) = false
  ∧ getId (handle s) = Throw (ErrNotAcquired (currentStatusName (handle s))).
Proof.
  intros Hc Hr Hrank Hlt.
  assert (isAcquired (handle s) = false) as Hf.
  { destruct (isAcquired (handle s)) eqn:Hacq; [|done].
    destruct (reachable_acquired_rank _ _ _ _ Hc Hr Hacq) as (r' & Hr' & Hge).
    rewrite Hrank in Hr'. simplify_eq. lia. }
  split; [done|]. unfold getId. by rewrite Hf.
Qed.

Lemma getId_throws_before_acquired_witness :
  isAcquired (set_status (Some "acquiring") (Some 200) demo_lock) = false
  ∧ getId (set_status (Some "acquiring") (Some 200) demo_lock)
    = Throw (ErrNotAcquired (Some "acquiring")).
Proof.
  apply (getId_throws_before_acquired demo_args demo_lock [Call MLock 0]
           (mkSys (set_status (Some "acquiring") (Some 200) demo_lock)
                  [TLock (LockInTry 0 TryResolve)] [EvResolve "rda-lock"]) 200).
  - reflexivity.
  - reflexivity.
  - reflexivity.
  - lia.
Defined.

(** ** The constructors *)

(** X3.  The handle's constructor succeeds exactly when a registry client is
    given together with a truthy lock id or a resource string.  What it
    builds knows either its lock id (adopted, [acquired], no resource, even
    if a resource was passed) or its resource (fresh, [initialized], no lock
    id), never both; the back-off counter is 0 and no delay exists yet. *)
Theorem Lock_constructor_dichotomy a :
  (truthy (arg_registryClient a) = false →
   Lock_constructor a = Throw ErrRegistryClientMissing)
  ∧ ((∃ this, Lock_constructor a = Normal this)
     ↔ truthy (arg_registryClient a) = true
       ∧ (truthy (arg_lockId a) = true ∨ is_string (arg_resourceId a) = true))
  ∧ ∀ this, Lock_constructor a = Normal this →
      lockCallCount this = 0 ∧ tryLockTimeout this = None ∧ keepAliveTimeout this = None
      ∧ ((lockId this = arg_lockId a ∧ truthy (lockId this) = true
          ∧ resourceId this = VUndefined ∧ currentStatusName this = Some "acquired")
         ∨ (lockId this = VUndefined ∧ resourceId this = arg_resourceId a
            ∧ is_string (resourceId this) = true
            ∧ currentStatusName this = Some "initialized")).
Proof.
  unfold Lock_constructor. split; [by intros ->|].
  destruct (truthy (arg_registryClient a)).
  - destruct (truthy (arg_lockId a)) eqn:Hid.
    + split; [split; [auto|eauto]|]. intros this H. simplify_eq. simpl. by auto 10.
    + destruct (is_string (arg_resourceId a)) eqn:Hs; simpl.
      * split; [split; [auto|]|].
        -- intros _. eexists. by vm_compute.
        -- intros this H. vm_compute in H. simplify_eq. simpl. by auto 10.
      * split; [|done]. split; [by intros [? ?]|]. intros [_ [?|?]]; done.
  - split; [|done]. split; [by intros [? ?]|]. by intros [? _].
Qed.

Lemma Lock_constructor_dichotomy_witness :
  Lock_constructor (mkLockArgs None VUndefined VNull (VStr "r") None None)
  = Throw ErrRegistryClientMissing.
Proof.
  apply (proj1 (Lock_constructor_dichotomy
                  (mkLockArgs None VUndefined VNull (VStr "r") None None))).
  reflexivity.
Defined.

(** X4.  Whatever [getId()] returns can be adopted: for an id returned by
    [getId()] of any handle, [adoptLock] of a constructed client gives a
    handle that is [acquired] at once, holds that id and no resource, and
    whose [getId()] returns the id again. *)
Theorem adoptLock_of_getId rc host client this options v :
  LockClient_constructor rc host = Normal client →
  getId this = Normal v →
  ∃ adopted, adoptLock client v options = Normal adopted
             ∧ currentStatusName adopted = Some "acquired"
             ∧ currentStatus adopted = Some 300
             ∧ lockId adopted = v ∧ resourceId adopted = VUndefined
             ∧ isAcquired adopted = true
             ∧ getId adopted = Normal v.
Proof.
  intros Hc Hg. apply constructed_client_truthy in Hc.
  unfold getId, isAcquired in Hg. destruct (truthy (lockId this)) eqn:Ht; [|done].
  simplify_eq. unfold adoptLock, Lock_constructor. simpl. rewrite Hc, Ht.
  eexists. split; [done|]. unfold getId, isAcquired. simpl. by rewrite Ht.
Qed.

Lemma adoptLock_of_getId_witness :
  ∃ adopted, adoptLock demo_client (VNum 7) None = Normal adopted
             ∧ currentStatusName adopted = Some "acquired"
             ∧ currentStatus adopted = Some 300
             ∧ lockId adopted = VNum 7 ∧ resourceId adopted = VUndefined
             ∧ isAcquired adopted = true
             ∧ getId adopted = Normal (VNum 7).
Proof.
  apply (adoptLock_of_getId (VObj "registry") VUndefined demo_client demo_adopted None (VNum 7)).
  - reflexivity.
  - reflexivity.
Defined.

(** ** tryToLock *)


(** ** keepAlive *)




(** X7.  A renewal that fails moves the handle to [failed] and raises the
    error of the request again; in the activity that [lock()] left in the
    background, the error is only logged and the activity settles
    normally.  On a handle that is [failed] already, the error that is
    raised (and logged) is the one of [setStatus]. *)
Theorem keepAlive_failure_is_logged s i a err now r :
  wf (handle s) →
  tasks s !! i = Some (TKeepAlive true KeepPatch) →
  expect [200] a = Some (Throw err) →
  rank (handle s) = Some r →
  (r < 999 →
   keepAlive_resume KeepPatch a (handle s)
   = Some (mkOut (Raise err) (set_status (Some "failed") (Some 999) (handle s)) [] [])
   ∧ sys_step (Settle i a now) s
     = Some (mkSys (set_status (Some "failed") (Some 999) (handle s))
                   (<[i := TSettled (Normal VUndefined)]> (tasks s))
                   (trace s ++ [EvLog err])))
  ∧ (r = 999 →
     sys_step (Settle i a now) s
     = Some (mkSys (handle s)
                   (<[i := TSettled (Normal VUndefined)]> (tasks s))
                   (trace s ++ [EvLog (ErrStatusNotHigher (currentStatusName (handle s))
                                                          (Some 999) "failed" 999)]))).
Proof.
  intros Hwf Ht He Hr. destruct (wf_rank _ Hwf) as (r' & Hr' & Hc).
  assert (r' = r) as -> by congruence.
  split.
  - intros Hlt.
    assert (keepAlive_resume KeepPatch a (handle s)
            = Some (mkOut (Raise err) (set_status (Some "failed") (Some 999) (handle s)) [] []))
      as E by (simpl; rewrite He; by rewrite (setStatus_ok "failed" 999 r)).
    split; [done|]. simpl. rewrite Ht. simpl. rewrite He.
    rewrite (setStatus_ok "failed" 999 r) by done.
    unfold resumed; simpl. by rewrite !app_nil_r.
  - intros ->. simpl. rewrite Ht. simpl. rewrite He.
    rewrite (setStatus_reject "failed" 999 999) by done.
    unfold resumed; simpl. by rewrite !app_nil_r.
Qed.

Lemma keepAlive_failure_is_logged_witness :
  sys_step (Settle 0 (AResponse 500) 9)
           (mkSys demo_adopted [TKeepAlive true KeepPatch] [])
  = Some (mkSys (set_status (Some "failed") (Some 999) demo_adopted)
                [TSettled (Normal VUndefined)]
                [EvLog (ErrUnexpectedStatus 500)]).
Proof.
  refine (proj2 (proj1 (keepAlive_failure_is_logged
                   (mkSys demo_adopted [TKeepAlive true KeepPatch] []) 0
                   (AResponse 500) (ErrUnexpectedStatus 500) 9 300
                   demo_adopted_wf eq_refl eq_refl eq_refl) _)).
  lia.
Defined.

(** ** hasLock *)


(** ** cancel *)

(** X9.  Canceling twice is canceling once: on a handle that is not
    [acquired], a second [cancel()] leaves the handle exactly as the first
    one left it, and after [cancel()] a back-off delay, if the handle has
    one, is canceled. *)
Theorem cancel_is_idempotent this :
  currentStatusName this ≠ Some "acquired" →
  obj (cancel_start (obj (cancel_start this))) = obj (cancel_start this)
  ∧ next (cancel_start (obj (cancel_start this))) = Return VUndefined
  ∧ (∀ d, tryLockTimeout this = Some d →
          tryLockTimeout (obj (cancel_start this)) = Some (mkDelay true))
  ∧ (tryLockTimeout this = None → obj (cancel_start this) = this).
Proof.
  intros Hne.
  assert (∀ h, currentStatusName h ≠ Some "acquired" → cancel_start h = cancel_tail h) as E.
  { intros h Hh. unfold cancel_start, status_is. by rewrite bool_decide_eq_false_2. }
  rewrite (E this Hne). rewrite (E (obj (cancel_tail this))) by done.
  unfold cancel_tail; simpl. repeat split.
  - by destruct (tryLockTimeout this).
  - by intros d ->.
  - intros Hn. destruct this; simpl in *. by subst.
Qed.

Lemma cancel_is_idempotent_witness :
  obj (cancel_start (obj (cancel_start demo_lock))) = obj (cancel_start demo_lock).
Proof.
  apply (proj1 (cancel_is_idempotent demo_lock ltac:(discriminate))).
Defined.

(** ** lock(): the ways it ends *)

Lemma wf_initialized this :
  wf this → currentStatusName this = Some "initialized" → currentStatus this = Some 100.
Proof.
  intros (n & r & Hn & Hr & Hmap) Ha. rewrite Ha in Hn. simplify_eq.
  vm_compute in Hmap. congruence.
Qed.

Lemma lock_start_from_initialized this now :
  wf this → currentStatusName this = Some "initialized" →
  lock_start now this = lock_loop now now (set_status (Some "acquiring") (Some 200) this).
Proof.
  intros Hwf Hi. unfold lock_start.
  by rewrite (setStatus_ok "acquiring" 200 100) by (done || by apply wf_initialized).
Qed.





Lemma lock_finish_not_acquired this r :
  wf this → currentStatusName this ≠ Some "acquired" → rank this = Some r → r < 900 →
  lock_finish this
  = mkOut (Raise (ErrTimeout (timeout this))) (set_status (Some "timeout") (Some 900) this)
          [] [].
Proof.
  intros Hwf Hne Hr Hlt. destruct (wf_rank _ Hwf) as (r' & Hr' & Hc).
  assert (r' = r) as -> by congruence.
  unfold lock_finish, status_is. rewrite bool_decide_eq_false_2 by done.
  by rewrite (setStatus_ok "timeout" 900 r).
Qed.

(** X11.  The deadline.  When the back-off wait is over and the clock has
    reached [lockStart + timeout * 1000], the loop issues no further request:
    a handle that is not [acquired] (and not yet [timeout] or [failed])
    moves to [timeout] and [lock()] ends with the timeout error. *)
Theorem lock_gives_up_at_the_deadline this lockStart now r :
  wf this → currentStatusName this ≠ Some "acquired" →
  rank this = Some r → r < 900 →
  lockStart + timeout this * 1000 ≤ now →
  lock_resume (LockWait lockStart) AElapsed now this
  = Some (mkOut (Raise (ErrTimeout (timeout this)))
                (set_status (Some "timeout") (Some 900) this) [] []).
Proof.
  intros Hwf Hne Hr Hlt Hd. simpl. unfold lock_loop.
  replace (lockStart + timeout this * 1000 >? now) with false
    by (symmetry; rewrite Z.gtb_ltb; apply Z.ltb_ge; lia).
  by rewrite (lock_finish_not_acquired this r).
Qed.

Lemma lock_gives_up_at_the_deadline_witness :
  lock_resume (LockWait 0) AElapsed 60000
              (set_status (Some "acquiring") (Some 200) demo_lock)
  = Some (mkOut (Raise (ErrTimeout 60))
                (set_status (Some "timeout") (Some 900) demo_lock) [] []).
Proof.
  apply (lock_gives_up_at_the_deadline
           (set_status (Some "acquiring") (Some 200) demo_lock) 0 60000 200).
  - by exists "acquiring", 200.
  - discriminate.
  - reflexivity.
  - lia.
  - simpl. lia.
Defined.

(** X12.  A timeout of zero (or less).  [lock()] on a fresh handle then
    issues no request at all: it passes through [acquiring] straight to
    [timeout] and throws the timeout error. *)
Theorem lock_with_no_time_left this now :
  wf this → currentStatusName this = Some "initialized" → timeout this ≤ 0 →
  lock_start now this
  = mkOut (Raise (ErrTimeout (timeout this)))
          (set_status (Some "timeout") (Some 900) this) [] [].
Proof.
  intros Hwf Hi Hz. rewrite lock_start_from_initialized by done. unfold lock_loop.
  replace (now + timeout (set_status (Some "acquiring") (Some 200) this) * 1000 >? now)
    with false by (symmetry; rewrite Z.gtb_ltb; apply Z.ltb_ge; simpl; lia).
  by rewrite (lock_finish_not_acquired _ 200) by (done || by exists "acquiring", 200).
Qed.

Lemma lock_with_no_time_left_witness :
  lock_start 5 (mkLock (VObj "registry") VUndefined (VStr "r")
                       (Some "initialized") (Some 100) 30 0 true 0 (13 # 10)%Q 15 None None)
  = mkOut (Raise (ErrTimeout 0))
          (mkLock (VObj "registry") VUndefined (VStr "r")
                  (Some "timeout") (Some 900) 30 0 true 0 (13 # 10)%Q 15 None None) [] [].
Proof.
  apply (lock_with_no_time_left
           (mkLock (VObj "registry") VUndefined (VStr "r")
                   (Some "initialized") (Some 100) 30 0 true 0 (13 # 10)%Q 15 None None) 5).
  - by exists "initialized", 100.
  - reflexivity.
  - simpl. lia.
Defined.

(** X13.  A handle at [freeing] or later is closed to new calls: [lock()],
    [free()] (with or without [ignoreStatus]) and [cancel()] settle at once,
    issue no request, start nothing, and leave the status and the lock id
    as they are; [lock()] and [free()] settle with an error. *)
Theorem calls_after_freeing_do_nothing s r now :
  wf (handle s) → rank (handle s) = Some r → 400 ≤ r →
  (∃ e, sys_step (Call MLock now) s
        = Some (mkSys (handle s) (tasks s ++ [TSettled (Throw e)]) (trace s)))
  ∧ (∃ e, sys_step (Call (MFree false) now) s
          = Some (mkSys (handle s) (tasks s ++ [TSettled (Throw e)]) (trace s)))
  ∧ (∃ e, sys_step (Call (MFree true) now) s
          = Some (mkSys (set_keepAliveTimeout (cancel_if_set (keepAliveTimeout (handle s)))
                                              (handle s))
                        (tasks s ++ [TSettled (Throw e)]) (trace s)))
  ∧ sys_step (Call MCancel now) s
    = Some (mkSys (set_tryLockTimeout (cancel_if_set (tryLockTimeout (handle s))) (handle s))
                  (tasks s ++ [TSettled (Normal VUndefined)]) (trace s)).
Proof.
  intros Hwf Hr Hge. destruct (wf_rank _ Hwf) as (r' & Hr' & Hc).
  assert (r' = r) as -> by congruence.
  assert (currentStatusName (handle s) ≠ Some "acquired") as Hna.
  { intros Ha. unfold rank in Hr. rewrite Ha in Hr. vm_compute in Hr. simplify_eq; lia. }
  assert (currentStatusName (handle s) ≠ Some "initialized") as Hni.
  { intros Ha. unfold rank in Hr. rewrite Ha in Hr. vm_compute in Hr. simplify_eq; lia. }
  split; [|split; [|split]].
  - eexists. simpl. rewrite lock_start_not_initialized by done.
    unfold called; simpl. by rewrite !app_nil_r.
  - eexists. simpl. unfold free_start, status_is. rewrite bool_decide_eq_false_2 by done.
    unfold called; simpl. by rewrite !app_nil_r.
  - eexists. simpl. unfold free_start. simpl.
    rewrite (setStatus_reject "freeing" 400 r) by (done || lia).
    unfold called; simpl. by rewrite !app_nil_r.
  - simpl. unfold cancel_start, status_is. rewrite bool_decide_eq_false_2 by done.
    unfold called; simpl. by rewrite !app_nil_r.
Qed.

Lemma calls_after_freeing_do_nothing_witness :
  sys_step (Call MCancel 3) (boot demo_freed)
  = Some (mkSys (set_tryLockTimeout (cancel_if_set (tryLockTimeout demo_freed)) demo_freed)
                [TSettled (Normal VUndefined)] []).
Proof.
  refine (proj2 (proj2 (proj2 (calls_after_freeing_do_nothing (boot demo_freed) 500 3
                                 _ eq_refl _)))).
  - by exists "freed", 500.
  - lia.
Defined.

(** ** What the requests carry *)

Ltac no_post := repeat (constructor; try done).

Lemma free_start_posts h ign this : Forall (post_of h) (emitted (free_start ign this)).
Proof. unfold free_start. split_code; no_post. Qed.

Lemma free_resume_posts h pc a this o :
  free_resume pc a this = Some o → Forall (post_of h) (emitted o).
Proof. intros E. unfold free_resume in E. split_code; no_post. Qed.

Lemma keepAlive_resume_posts h pc a this o :
  keepAlive_resume pc a this = Some o → Forall (post_of h) (emitted o).
Proof. intros E. unfold keepAlive_resume in E. split_code; no_post. Qed.

Lemma tryToLock_resume_posts pc a this o :
  tryToLock_resume pc a this = Some o → Forall (post_of this) (emitted o).
Proof. intros E. unfold tryToLock_resume in E. split_code; no_post. Qed.

Lemma lock_finish_posts h this : Forall (post_of h) (emitted (lock_finish this)).
Proof. unfold lock_finish, keepAlive_start. split_code; no_post. Qed.

Lemma lock_body_posts h lockStart v this :
  Forall (post_of h) (emitted (lock_body lockStart v this)).
Proof.
  unfold lock_body. repeat case_match; simpl;
    try apply Forall_app_2; auto using free_start_posts, lock_finish_posts; no_post.
Qed.

Lemma lock_loop_posts h lockStart now this :
  Forall (post_of h) (emitted (lock_loop lockStart now this)).
Proof. unfold lock_loop. case_match; first [apply lock_finish_posts|no_post]. Qed.

Lemma lock_start_posts h now this : Forall (post_of h) (emitted (lock_start now this)).
Proof. unfold lock_start. repeat case_match; simpl; first [apply lock_loop_posts|no_post]. Qed.

Lemma lock_resume_posts pc a now this o :
  lock_resume pc a now this = Some o → Forall (post_of this) (emitted o).
Proof.
  intros E. unfold lock_resume in E. destruct pc as [lockStart pc|pc|lockStart].
  - destruct (tryToLock_resume pc a this) as [t|] eqn:Et; simplify_eq/=.
    pose proof (tryToLock_resume_posts _ _ _ _ Et).
    case_match; simpl; try done. apply Forall_app_2; [done|apply lock_body_posts].
  - destruct (free_resume pc a this) as [f|] eqn:Ef; simplify_eq/=.
    pose proof (free_resume_posts this _ _ _ _ Ef).
    case_match; simpl; try done. apply Forall_app_2; [done|apply lock_finish_posts].
  - destruct a; simplify_eq; try apply lock_loop_posts. no_post.
Qed.

Lemma cancel_start_posts h this : Forall (post_of h) (emitted (cancel_start this)).
Proof.
  unfold cancel_start. repeat case_match; simpl;
    try apply Forall_app_2; auto using free_start_posts; no_post.
Qed.

Lemma cancel_resume_posts h pc a this o :
  cancel_resume pc a this = Some o → Forall (post_of h) (emitted o).
Proof.
  intros E. unfold cancel_resume in E. destruct pc as [pc].
  destruct (free_resume pc a this) as [f|] eqn:Ef; simplify_eq/=.
  pose proof (free_resume_posts h _ _ _ _ Ef).
  case_match; simpl; try done. apply Forall_app_2; [done|no_post].
Qed.

Lemma sys_step_posts l s s' :
  sys_step l s = Some s' →
  ∃ es, trace s' = (trace s ++ es)%list ∧ Forall (post_of (handle s)) es.
Proof.
  intros E. destruct l as [m now | i a now]; simpl in E.
  - destruct m; simplify_eq/=; try (eexists; split; [reflexivity|]);
      auto using lock_start_posts, cancel_start_posts, free_start_posts.
    + unfold keepAlive_start. no_post.
    + no_post.
    + destruct (setStatus statusName (handle s)). simplify_eq/=.
      exists []. by rewrite app_nil_r.
    + exists []. by rewrite app_nil_r.
    + exists []. by rewrite app_nil_r.
  - destruct (tasks s !! i) as [t|]; simplify_eq/=.
    destruct t as [pc|pc|pc|pc|[] pc|c]; simplify_option_eq;
      (eexists; split; [reflexivity|]);
      eauto using lock_resume_posts, free_resume_posts, cancel_resume_posts,
                  tryToLock_resume_posts, keepAlive_resume_posts.
    unfold logged_keepAlive.
    match goal with H : keepAlive_resume _ _ _ = Some ?o |- _ =>
      pose proof (keepAlive_resume_posts (handle s) _ _ _ _ H) end.
    case_match; simpl; try done. apply Forall_app_2; [done|no_post].
Qed.

Lemma post_of_config a b e : config_kept a b → post_of a e → post_of b e.
Proof.
  intros (_ & Hr & Ht & _) H. destruct e; simpl in *; try done.
  rewrite Hr, Ht. done.
Qed.

Lemma run_posts ls : ∀ s s',
  wf (handle s) → Forall (post_of (handle s)) (trace s) → run ls s = Some s' →
  Forall (post_of (handle s)) (trace s').
Proof.
  induction ls as [|l ls IH]; intros s s' Hwf Hp E; simplify_eq/=; [done|].
  destruct (sys_step l s) as [s1|] eqn:E1; simplify_eq/=.
  destruct (sys_step_moves _ _ _ Hwf E1) as (Hwf1 & _ & Hk).
  destruct (sys_step_posts _ _ _ E1) as (es & Het & Hes).
  assert (Forall (post_of (handle s1)) (trace s1)) as Hp1.
  { rewrite Het. apply Forall_app_2; eapply Forall_impl; eauto using post_of_config. }
  specialize (IH s1 s' Hwf1 Hp1 E).
  eapply Forall_impl; [exact IH|]. intros e. apply post_of_config.
  unfold config_kept in *. intuition congruence.
Qed.

(** X14.  Every create request of a handle, at every attempt of every
    history, carries the ttl and the resource the handle was constructed
    with. *)
Theorem create_requests_carry_the_resource a this ls s host t r :
  Lock_constructor a = Normal this →
  run ls (boot this) = Some s →
  EvPost host t r ∈ trace s →
  t = default 30 (arg_ttl a) ∧ r = resourceId this ∧ ttl (handle s) = t.
Proof.
  intros Hc Hr Hin. pose proof (constructor_wf _ _ Hc) as Hwf.
  pose proof (run_posts ls (boot this) s Hwf (Forall_nil_2 _) Hr) as Hp.
  simpl in Hp. rewrite Forall_forall in Hp. destruct (Hp _ Hin) as [-> ->].
  destruct (reachable_moves _ _ _ _ Hc Hr) as (_ & _ & (_ & _ & Ht & _)).
  split; [|split; [done|done]].
  unfold Lock_constructor in Hc. repeat case_match; simplify_eq; [done|].
  match goal with H : setStatus _ _ = _ |- _ => vm_compute in H end. by simplify_eq.
Qed.

Lemma create_requests_carry_the_resource_witness :
  30 = default 30 (arg_ttl demo_args) ∧ VStr "my-resource" = resourceId demo_lock
  ∧ ttl (set_status (Some "acquiring") (Some 200) demo_lock) = 30.
Proof.
  apply (create_requests_carry_the_resource demo_args demo_lock
           [Call MLock 0; Settle 0 (AResolved "host") 1]
           (mkSys (set_status (Some "acquiring") (Some 200) demo_lock)
                  [TLock (LockInTry 0 TrySend)]
                  [EvResolve "rda-lock"; EvPost "host" 30 (VStr "my-resource")])
           "host" 30 (VStr "my-resource")).
  - reflexivity.
  - reflexivity.
  - simpl. apply list_elem_of_further, list_elem_of_here.
Defined.

(** ** Handles without keep-alive *)

Ltac be_quiet := split; [done|repeat (constructor; try done)].

Lemma free_start_quiet ign this : quiet (free_start ign this).
Proof. unfold free_start. split_code; be_quiet. Qed.

Lemma free_resume_quiet pc a this o : free_resume pc a this = Some o → quiet o.
Proof. intros E. unfold free_resume in E. split_code; be_quiet. Qed.

Lemma tryToLock_resume_quiet pc a this o : tryToLock_resume pc a this = Some o → quiet o.
Proof. intros E. unfold tryToLock_resume in E. split_code; be_quiet. Qed.

Lemma lock_finish_quiet this : doKeepAlive this = false → quiet (lock_finish this).
Proof. intros Hd. unfold lock_finish. split_code; be_quiet. Qed.

Lemma quiet_after {PC} es (o : out PC) :
  Forall (λ e, is_renew e = false) es → quiet o → quiet (after es [] o).
Proof. intros He [Hs Ho]. split; [done|]. by apply Forall_app_2. Qed.

Lemma setStatus_doKeepAlive n this c this' :
  setStatus n this = (c, this') → doKeepAlive this' = doKeepAlive this.
Proof.
  unfold setStatus, setStatus_known. intros H. by split_code.
Qed.

Lemma lock_body_quiet lockStart v this :
  doKeepAlive this = false → quiet (lock_body lockStart v this).
Proof.
  intros Hd. unfold lock_body.
  pose proof (free_start_quiet true this) as [Hf1 Hf2].
  repeat case_match; simpl; try by be_quiet.
  - exfalso. clear Hf1 Hf2. unfold free_start in *. by split_code.
  - apply lock_finish_quiet. simpl.
    by erewrite setStatus_doKeepAlive by eassumption.
Qed.

Lemma lock_loop_quiet lockStart now this :
  doKeepAlive this = false → quiet (lock_loop lockStart now this).
Proof.
  intros Hd. unfold lock_loop. case_match; [be_quiet|by apply lock_finish_quiet].
Qed.

Lemma lock_start_quiet now this : doKeepAlive this = false → quiet (lock_start now this).
Proof.
  intros Hd. unfold lock_start. repeat case_match; simpl; try by be_quiet.
  apply lock_loop_quiet. by erewrite setStatus_doKeepAlive by eassumption.
Qed.

Lemma free_resume_doKeepAlive pc a this o :
  free_resume pc a this = Some o → doKeepAlive (obj o) = doKeepAlive this.
Proof.
  intros E. unfold free_resume in E.
  split_code; try done; by erewrite setStatus_doKeepAlive by eassumption.
Qed.

Lemma tryToLock_resume_obj pc a this o : tryToLock_resume pc a this = Some o → obj o = this.
Proof. intros E. unfold tryToLock_resume in E. by split_code. Qed.

Lemma lock_resume_quiet pc a now this o :
  doKeepAlive this = false → lock_resume pc a now this = Some o → quiet o.
Proof.
  intros Hd E. unfold lock_resume in E. destruct pc as [lockStart pc|pc|lockStart].
  - destruct (tryToLock_resume pc a this) as [t|] eqn:Et; simplify_eq/=.
    destruct (tryToLock_resume_quiet _ _ _ _ Et) as [Hs He].
    rewrite (tryToLock_resume_obj _ _ _ _ Et).
    case_match; simpl; try by split.
    rewrite Hs. apply quiet_after; [done|by apply lock_body_quiet].
  - destruct (free_resume pc a this) as [f|] eqn:Ef; simplify_eq/=.
    destruct (free_resume_quiet _ _ _ _ Ef) as [Hs He].
    case_match; simpl; try by split.
    rewrite Hs. apply quiet_after; [done|]. apply lock_finish_quiet.
    by rewrite (free_resume_doKeepAlive _ _ _ _ Ef).
  - destruct a; simplify_eq; try by apply lock_loop_quiet. be_quiet.
Qed.

Lemma cancel_start_quiet this : quiet (cancel_start this).
Proof.
  unfold cancel_start. pose proof (free_start_quiet false this) as [Hf1 Hf2].
  repeat case_match; simpl; try by split.
  rewrite Hf1. split; [done|]. simpl. by rewrite app_nil_r.
Qed.

Lemma cancel_resume_quiet pc a this o : cancel_resume pc a this = Some o → quiet o.
Proof.
  intros E. unfold cancel_resume in E. destruct pc as [pc].
  destruct (free_resume pc a this) as [f|] eqn:Ef; simplify_eq/=.
  destruct (free_resume_quiet _ _ _ _ Ef) as [Hs He].
  case_match; simpl; try by split.
  rewrite Hs. split; [done|]. simpl. by rewrite app_nil_r.
Qed.

Lemma task_of_not_keepAlive {PC} (wrap : PC → task) c :
  (∀ pc, is_keepAlive_task (wrap pc) = false) → is_keepAlive_task (task_of wrap c) = false.
Proof. intros H. destruct c; simpl; auto. Qed.

Lemma called_quiet {PC} (wrap : PC → task) s (o : out PC) :
  (∀ pc, is_keepAlive_task (wrap pc) = false) → quiet o →
  Forall (λ t, is_keepAlive_task t = false) (tasks s) →
  Forall (λ t, is_keepAlive_task t = false) (tasks (called wrap s o))
  ∧ ∃ es, trace (called wrap s o) = (trace s ++ es)%list
          ∧ Forall (λ e, is_renew e = false) es.
Proof.
  intros Hw [Hs He] Ht. unfold called; simpl. rewrite Hs. simpl. split; [|by eauto].
  apply Forall_app_2; [done|]. constructor; [|done]. by apply task_of_not_keepAlive.
Qed.

Lemma resumed_quiet {PC} (wrap : PC → task) s i (o : out PC) :
  (∀ pc, is_keepAlive_task (wrap pc) = false) → quiet o →
  Forall (λ t, is_keepAlive_task t = false) (tasks s) →
  Forall (λ t, is_keepAlive_task t = false) (tasks (resumed wrap s i o))
  ∧ ∃ es, trace (resumed wrap s i o) = (trace s ++ es)%list
          ∧ Forall (λ e, is_renew e = false) es.
Proof.
  intros Hw [Hs He] Ht. unfold resumed; simpl. rewrite Hs. simpl. split; [|by eauto].
  rewrite app_nil_r. apply Forall_insert; [done|]. by apply task_of_not_keepAlive.
Qed.

Lemma sys_step_quiet l s s' :
  doKeepAlive (handle s) = false → calls_keepAlive l = false →
  Forall (λ t, is_keepAlive_task t = false) (tasks s) →
  sys_step l s = Some s' →
  Forall (λ t, is_keepAlive_task t = false) (tasks s')
  ∧ ∃ es, trace s' = (trace s ++ es)%list ∧ Forall (λ e, is_renew e = false) es.
Proof.
  intros Hd Hl Ht E. destruct l as [m now | i a now]; simpl in E.
  - destruct m; simplify_eq/=.
    + apply (called_quiet TLock); [done|by apply lock_start_quiet|done].
    + apply (called_quiet TCancel); [done|apply cancel_start_quiet|done].
    + apply (called_quiet TFree); [done|apply free_start_quiet|done].
    + apply (called_quiet TTryToLock s (tryToLock_start (handle s))); [done| |done].
      split; [done|]. by repeat constructor.
    + destruct (setStatus statusName (handle s)) as [c this']. simplify_eq/=. split.
      * apply Forall_app_2; [done|]. constructor; [|done]. by destruct c.
      * exists []. by rewrite app_nil_r.
    + split; [apply Forall_app_2; [done|by repeat constructor]|].
      exists []. by rewrite app_nil_r.
    + split; [|exists []; by rewrite app_nil_r].
      apply Forall_app_2; [done|]. constructor; [|done]. by destruct (getId (handle s)).
  - destruct (tasks s !! i) as [t|] eqn:Hi; simplify_eq/=.
    pose proof (Forall_lookup_1 _ _ _ _ Ht Hi) as Hnk.
    destruct t as [pc|pc|pc|pc|b pc|c]; simplify_option_eq.
    + apply resumed_quiet; [done|by eapply lock_resume_quiet|done].
    + apply resumed_quiet; [done|by eapply free_resume_quiet|done].
    + apply resumed_quiet; [done|by eapply cancel_resume_quiet|done].
    + apply resumed_quiet; [done|by eapply tryToLock_resume_quiet|done].
Qed.

Lemma run_quiet ls : ∀ s s',
  wf (handle s) → doKeepAlive (handle s) = false →
  Forall (λ l, calls_keepAlive l = false) ls →
  Forall (λ t, is_keepAlive_task t = false) (tasks s) →
  Forall (λ e, is_renew e = false) (trace s) →
  run ls s = Some s' →
  Forall (λ t, is_keepAlive_task t = false) (tasks s')
  ∧ Forall (λ e, is_renew e = false) (trace s').
Proof.
  induction ls as [|l ls IH]; intros s s' Hwf Hd Hls Ht He E; simplify_eq/=; [done|].
  destruct (sys_step l s) as [s1|] eqn:E1; simplify_eq/=.
  apply Forall_cons in Hls as [Hl Hls].
  destruct (sys_step_moves _ _ _ Hwf E1) as (Hwf1 & _ & Hk).
  destruct (sys_step_quiet _ _ _ Hd Hl Ht E1) as (Ht1 & es & Het & Hes).
  apply (IH s1); try done.
  - unfold config_kept in Hk. intuition congruence.
  - rewrite Het. by apply Forall_app_2.
Qed.

(** X15.  With [keepAlive] off, a handle never renews: in every history of
    a handle constructed with [keepAlive: false], as long as nobody calls
    the private [keepAlive()] directly, no keep-alive activity is ever
    pending and no renew request is ever sent. *)
Theorem no_keepAlive_no_renewal a this ls s :
  Lock_constructor a = Normal this →
  arg_keepAlive a = Some false →
  Forall (λ l, calls_keepAlive l = false) ls →
  run ls (boot this) = Some s →
  filter is_renew (trace s) = []
  ∧ Forall (λ t, is_keepAlive_task t = false) (tasks s)
  ∧ ∀ host id, EvPatch host id ∉ trace s.
Proof.
  intros Hc Hk Hls Hr. pose proof (constructor_wf _ _ Hc) as Hwf.
  assert (doKeepAlive this = false) as Hd.
  { unfold Lock_constructor in Hc. repeat case_match; simplify_eq; simpl.
    - by rewrite Hk.
    - match goal with H : setStatus _ _ = _ |- _ =>
        rewrite (setStatus_doKeepAlive _ _ _ _ H) end.
      simpl. by rewrite Hk. }
  destruct (run_quiet ls (boot this) s Hwf Hd Hls (Forall_nil_2 _) (Forall_nil_2 _) Hr)
    as [Ht He].
  split; [|split; [done|]].
  - induction He as [|e es He1 He2 IH]; [done|].
    rewrite filter_cons. by rewrite He1.
  - intros host id Hin. rewrite Forall_forall in He. by specialize (He _ Hin).
Qed.

Lemma no_keepAlive_no_renewal_witness :
  filter is_renew [EvResolve "rda-lock"] = []
  ∧ Forall (λ t, is_keepAlive_task t = false) [TLock (LockInTry 0 TryResolve)]
  ∧ ∀ host id, EvPatch host id ∉ [EvResolve "rda-lock"].
Proof.
  apply (no_keepAlive_no_renewal
           (mkLockArgs (Some false) VUndefined (VObj "registry") (VStr "r") None None)
           (mkLock (VObj "registry") VUndefined (VStr "r")
                   (Some "initialized") (Some 100) 30 60 false 0 (13 # 10)%Q 15 None None)
           [Call MLock 0]
           (mkSys (mkLock (VObj "registry") VUndefined (VStr "r")
                          (Some "acquiring") (Some 200) 30 60 false 0 (13 # 10)%Q 15 None None)
                  [TLock (LockInTry 0 TryResolve)] [EvResolve "rda-lock"])).
  - reflexivity.
  - reflexivity.
  - repeat constructor.
  - reflexivity.
Defined.

(** ** free() and the keep-alive delay *)

(** X16.  [free()] stops the keep-alive delay before it does anything else:
    whenever it gets past its status check (an acquired handle, or
    [ignoreStatus]), the delay of the handle, if there is one, is canceled
    afterwards, even if [free()] then fails at [setStatus('freeing')]; when
    the status check fails, the delay is left as it was. *)
Theorem free_cancels_the_keepAlive_delay this ignoreStatus d :
  keepAliveTimeout this = Some d →
  (ignoreStatus = true ∨ currentStatusName this = Some "acquired" →
   keepAliveTimeout (obj (free_start ignoreStatus this)) = Some (mkDelay true))
  ∧ (ignoreStatus = false → currentStatusName this ≠ Some "acquired" →
     obj (free_start ignoreStatus this) = this
     ∧ ∃ e, next (free_start ignoreStatus this) = Raise e).
Proof.
  intros Hk. split.
  - intros Hok. unfold free_start, status_is.
    assert (negb ignoreStatus && negb (bool_decide (currentStatusName this = Some "acquired"))
            = false) as ->.
    { destruct Hok as [-> | Ha]; [done|].
      rewrite (bool_decide_eq_true_2 _ Ha). by rewrite andb_false_r. }
    rewrite Hk. simpl.
    destruct (setStatus "freeing" _) as [c this'] eqn:Hs.
    unfold setStatus, setStatus_known in Hs. by split_code.
  - intros -> Hne. unfold free_start, status_is.
    rewrite bool_decide_eq_false_2 by done. simpl. eauto.
Qed.

Lemma free_cancels_the_keepAlive_delay_witness :
  keepAliveTimeout
    (obj (free_start false (set_keepAliveTimeout (Some (mkDelay false)) demo_adopted)))
  = Some (mkDelay true).
Proof.
  apply (proj1 (free_cancels_the_keepAlive_delay
                  (set_keepAliveTimeout (Some (mkDelay false)) demo_adopted) false
                  (mkDelay false) eq_refl)).
  right. reflexivity.
Defined.
